(** * doltgresql: wire messages, value types and SQL functions

    A shallow embedding of the parts of the repository that the
    specification talks about, and the properties proved of them.

    Layout:
    - [Go]         the fragment of Go's semantics the code relies on
                   (panicking slices, fixed-width integers, encoding/binary,
                   unicode/utf8);
    - [Functions]  server/functions: [left_string], [char_length_varchar];
    - [Types]      server/types: [XidType], [VarCharType];
    - [Char]       server/types: [CharType];
    - [Cast]       server/cast: the cast of an oid to text;
    - [Ast]        server/ast: the varchar a type reference resolves to;
    - [Connection] the message format and codec of postgres/connection;
    - [Messages]   postgres/messages: [CopyData], [ParseComplete];
    - [Server]     server: [Listener.Accept] and the connection protocol. *)

From Stdlib Require Import ZArith Lia.
From Stdlib Require Import Strings.Byte.
From stdpp Require Import base decidable countable gmap strings list.

Local Open Scope Z_scope.

(* ===================================================================== *)
(** * Go: the language features used by the embedded code                *)
(* ===================================================================== *)

Module Go.

(** Run-time panics the embedded code can raise. *)
Inductive panic : Type :=
| SliceBoundsOutOfRange
| IndexOutOfRange
| InterfaceConversion
| MustFailed.

(** The outcome of running a Go function: it returns, or it panics. *)
Inductive outcome (A : Type) : Type :=
| Return (a : A)
| Panics (p : panic).

Arguments Return {A} a.
Arguments Panics {A} p.

#[global] Instance outcome_ret : MRet outcome := @Return.

#[global] Instance outcome_bind : MBind outcome := fun A B k m =>
  match m with
  | Return a => k a
  | Panics p => Panics p
  end.

Definition returns {A : Type} (m : outcome A) : Prop := exists a, m = Return a.

(** [len(s)] as an [int].  An [int] is taken to be 64 bits wide; no length
    and no sum of a length and a 32- or 64-bit integer leaves its range. *)
Definition len (s : list byte) : Z := Z.of_nat (length s).

(** [s[:hi]]: panics unless [0 <= hi <= len(s)]. *)
Definition slice_to (s : list byte) (hi : Z) : outcome (list byte) :=
  if (0 <=? hi) && (hi <=? len s)
  then Return (take (Z.to_nat hi) s)
  else Panics SliceBoundsOutOfRange.

(** [s[lo:]]: panics unless [0 <= lo <= len(s)]. *)
Definition slice_from (s : list byte) (lo : Z) : outcome (list byte) :=
  if (0 <=? lo) && (lo <=? len s)
  then Return (drop (Z.to_nat lo) s)
  else Panics SliceBoundsOutOfRange.

(** A byte as an unsigned number, and the conversion [byte(x)]. *)
Definition byte_to_Z (b : byte) : Z := Z.of_N (Byte.to_N b).

Definition byte_of_Z (z : Z) : byte :=
  match Byte.of_N (Z.to_N (z mod 256)) with
  | Some b => b
  | None => x00
  end.

(** The conversion [uint32(x)]: the low 32 bits. *)
Definition uint32 (z : Z) : Z := z mod 2 ^ 32.

(** The conversion [int32(x)]: the low 32 bits, read as two's complement. *)
Definition int32 (z : Z) : Z := (z + 2 ^ 31) mod 2 ^ 32 - 2 ^ 31.

#[global] Instance byte_eq_dec : EqDecision byte := Byte.byte_eq_dec.

#[global] Instance byte_countable : Countable byte :=
  inj_countable Byte.to_N Byte.of_N Byte.of_to_N.

(** Values of interface type [any], for the dynamic types the embedded
    code inspects. *)
Inductive any : Type :=
| ANil
| AUint32 (v : Z)
| AInt32 (v : Z)
| AString (s : list byte)
| ABytes (s : list byte)
| ABool (v : bool).

#[global] Instance any_eq_dec : EqDecision any.
Proof. solve_decision. Defined.

(** ** encoding/binary, big endian *)

(** [binary.BigEndian.PutUint32(b, v)] on a fresh [b := make([]byte, 4)]. *)
Definition PutUint32 (v : Z) : list byte :=
  [ byte_of_Z (Z.shiftr v 24); byte_of_Z (Z.shiftr v 16);
    byte_of_Z (Z.shiftr v 8); byte_of_Z v ].

(** [binary.BigEndian.Uint32(b)]: reads [b[0..3]], panics on a shorter [b]. *)
Definition Uint32 (b : list byte) : outcome Z :=
  match b with
  | b0 :: b1 :: b2 :: b3 :: _ =>
      Return (Z.lor (Z.lor (Z.lor (byte_to_Z b3) (Z.shiftl (byte_to_Z b2) 8))
                           (Z.shiftl (byte_to_Z b1) 16))
                    (Z.shiftl (byte_to_Z b0) 24))
  | _ => Panics IndexOutOfRange
  end.

(** ** unicode/utf8 *)

Definition RuneError : Z := 0xFFFD.

(** The entry of utf8's [first] table for a leading byte that starts a
    multi-byte sequence: the sequence's size and the range accepted for its
    second byte.  [None] stands for the entries [as] (ASCII) and [xx]
    (invalid), both of which decode as a rune of width 1. *)
Definition first (p0 : Z) : option (Z * (Z * Z)) :=
  if (0xC2 <=? p0) && (p0 <=? 0xDF) then Some (2, (0x80, 0xBF))
  else if p0 =? 0xE0 then Some (3, (0xA0, 0xBF))
  else if (0xE1 <=? p0) && (p0 <=? 0xEC) then Some (3, (0x80, 0xBF))
  else if p0 =? 0xED then Some (3, (0x80, 0x9F))
  else if (0xEE <=? p0) && (p0 <=? 0xEF) then Some (3, (0x80, 0xBF))
  else if p0 =? 0xF0 then Some (4, (0x90, 0xBF))
  else if (0xF1 <=? p0) && (p0 <=? 0xF3) then Some (4, (0x80, 0xBF))
  else if p0 =? 0xF4 then Some (4, (0x80, 0x8F))
  else None.

(** A continuation byte outside [lo..hi]. *)
Definition outside (lo hi c : Z) : bool := (c <? lo) || (hi <? c).

(** [utf8.DecodeRune(p)] and [utf8.DecodeRuneInString(s)]: the first rune
    of [p] and its width in bytes; [(RuneError, 0)] for an empty [p] and
    [(RuneError, 1)] for an invalid or short encoding. *)
Definition DecodeRune (p : list byte) : Z * Z :=
  match p with
  | [] => (RuneError, 0)
  | c0 :: rest =>
      let p0 := byte_to_Z c0 in
      match first p0 with
      | None => (if p0 <? 0x80 then p0 else RuneError, 1)
      | Some (sz, (lo, hi)) =>
          if len p <? sz then (RuneError, 1) else
          match rest with
          | [] => (RuneError, 1)
          | c1 :: rest1 =>
              let b1 := byte_to_Z c1 in
              if outside lo hi b1 then (RuneError, 1) else
              if sz <=? 2 then
                (Z.lor (Z.shiftl (Z.land p0 0x1F) 6) (Z.land b1 0x3F), 2)
              else
              match rest1 with
              | [] => (RuneError, 1)
              | c2 :: rest2 =>
                  let b2 := byte_to_Z c2 in
                  if outside 0x80 0xBF b2 then (RuneError, 1) else
                  if sz <=? 3 then
                    (Z.lor (Z.lor (Z.shiftl (Z.land p0 0x0F) 12)
                                  (Z.shiftl (Z.land b1 0x3F) 6))
                           (Z.land b2 0x3F), 3)
                  else
                  match rest2 with
                  | [] => (RuneError, 1)
                  | c3 :: _ =>
                      let b3 := byte_to_Z c3 in
                      if outside 0x80 0xBF b3 then (RuneError, 1) else
                      (Z.lor (Z.lor (Z.lor (Z.shiftl (Z.land p0 0x07) 18)
                                           (Z.shiftl (Z.land b1 0x3F) 12))
                                    (Z.shiftl (Z.land b2 0x3F) 6))
                             (Z.land b3 0x3F), 4)
                  end
              end
          end
      end
  end.

(** The width [DecodeRune] reports, as a number of list elements. *)
Definition width (p : list byte) : nat := Z.to_nat (DecodeRune p).2.

(** [utf8.RuneCount(p)] and [utf8.RuneCountInString(s)]: the number of
    runes in [p], erroneous and short encodings counting as single runes of
    width 1.  [RuneCount_advance] is the body of the loop at index [i],
    with [p] the bytes from [i] on: the number of bytes [i] grows by. *)
Definition RuneCount_advance (p : list byte) : Z :=
  match p with
  | [] => 0
  | c0 :: rest =>
      let c := byte_to_Z c0 in
      if c <? 0x80 then 1 else
      match first c with
      | None => 1
      | Some (size, (lo, hi)) =>
          if len p <? size then 1 else
          match rest with
          | [] => 1
          | c1 :: rest1 =>
              if outside lo hi (byte_to_Z c1) then 1
              else if size =? 2 then size
              else
                match rest1 with
                | [] => 1
                | c2 :: rest2 =>
                    if outside 0x80 0xBF (byte_to_Z c2) then 1
                    else if size =? 3 then size
                    else
                      match rest2 with
                      | [] => 1
                      | c3 :: _ =>
                          if outside 0x80 0xBF (byte_to_Z c3) then 1 else size
                      end
                end
          end
      end
  end.

(** The loop [for i := 0; i < np; { n++; ... }]; it runs at most [len(p)]
    times. *)
Fixpoint RuneCount_from (fuel : nat) (p : list byte) (n : Z) : Z :=
  match fuel with
  | O => n
  | S fuel' =>
      match p with
      | [] => n
      | _ :: _ => RuneCount_from fuel' (drop (Z.to_nat (RuneCount_advance p)) p) (n + 1)
      end
  end.

Definition RuneCount (p : list byte) : Z := RuneCount_from (length p) p 0.

(** The first [n] runes of [p]: the bytes that [n] successive [DecodeRune]
    calls consume (all of [p] when it has fewer runes). *)
Fixpoint first_runes (n : nat) (p : list byte) : list byte :=
  match n with
  | O => []
  | S n' =>
      match p with
      | [] => []
      | _ :: _ =>
          let w := Z.to_nat (DecodeRune p).2 in
          take w p ++ first_runes n' (drop w p)
      end
  end.

(** Nothing, or bytes that start with an ASCII byte: what follows cannot
    continue a multi-byte sequence. *)
Definition starts_ascii (q : list byte) : Prop :=
  match q with
  | [] => True
  | c :: _ => byte_to_Z c < 0x80
  end.

(** ** bytes, strings, strconv *)

(** [bytes.Compare(a, b)]: the lexicographic order of the bytes, as -1, 0
    or +1; a [nil] slice is an empty slice. *)
Fixpoint bytes_Compare (a b : list byte) : Z :=
  match a, b with
  | [], [] => 0
  | [], _ :: _ => -1
  | _ :: _, [] => 1
  | x :: a', y :: b' =>
      if byte_to_Z x <? byte_to_Z y then -1
      else if byte_to_Z y <? byte_to_Z x then 1
      else bytes_Compare a' b'
  end.

(** The operator [<] on strings: the lexicographic order of their bytes. *)
Fixpoint string_lt (a b : list byte) : bool :=
  match a, b with
  | _, [] => false
  | [], _ :: _ => true
  | x :: a', y :: b' =>
      if byte_to_Z x <? byte_to_Z y then true
      else if byte_to_Z y <? byte_to_Z x then false
      else string_lt a' b'
  end.

(** [strings.TrimRight(s, cutset)] for a [cutset] of one ASCII byte [c]:
    [s] without the bytes equal to [c] at its end. *)
Fixpoint TrimRight (s : list byte) (c : byte) : list byte :=
  match s with
  | [] => []
  | x :: s' =>
      match TrimRight s' c with
      | [] => if decide (x = c) then [] else [x]
      | t => x :: t
      end
  end.

(** [strings.Repeat(s, count)]: panics on a negative [count]. *)
Definition Repeat (s : list byte) (count : Z) : outcome (list byte) :=
  if count <? 0 then Panics MustFailed
  else Return (mjoin (replicate (Z.to_nat count) s)).

(** The runes a [for _, r := range s] loop over a string sees, in order;
    [fuel] bounds the number of runes by the number of bytes. *)
Fixpoint range_runes (fuel : nat) (s : list byte) : list Z :=
  match fuel with
  | O => []
  | S fuel' =>
      match s with
      | [] => []
      | _ :: _ => (DecodeRune s).1 :: range_runes fuel' (drop (width s) s)
      end
  end.

(** The conversion [[]rune(s)]. *)
Definition runes (s : list byte) : list Z := range_runes (length s) s.

(** The decimal digits of a non-negative [n], before [acc]; [fuel] bounds the
    number of digits. *)
Fixpoint digits (fuel : nat) (n : Z) (acc : list byte) : list byte :=
  match fuel with
  | O => acc
  | S fuel' =>
      let acc' := byte_of_Z (48 + n mod 10) :: acc in
      if n <? 10 then acc' else digits fuel' (n / 10) acc'
  end.

(** [strconv.FormatInt(i, 10)] for an [int64]: at most 19 digits, after a
    minus sign for a negative [i]. *)
Definition FormatInt (i : Z) : list byte :=
  if i <? 0 then x2d :: digits 19 (- i) [] else digits 19 i [].

(** ** encoding/binary, little endian *)

(** The four bytes [binary.LittleEndian.PutUint32] writes. *)
Definition le32 (v : Z) : list byte :=
  [ byte_of_Z v; byte_of_Z (Z.shiftr v 8);
    byte_of_Z (Z.shiftr v 16); byte_of_Z (Z.shiftr v 24) ].

(** [binary.LittleEndian.PutUint32(b, v)]: overwrites [b[0..3]], panics on
    a shorter [b]. *)
Definition LittleEndian_PutUint32 (b : list byte) (v : Z) : outcome (list byte) :=
  if len b <? 4 then Panics IndexOutOfRange
  else Return (le32 v ++ drop 4 b).

(** [binary.LittleEndian.Uint32(b)]: reads [b[0..3]], panics on a shorter
    [b]. *)
Definition LittleEndian_Uint32 (b : list byte) : outcome Z :=
  match b with
  | b0 :: b1 :: b2 :: b3 :: _ =>
      Return (Z.lor (Z.lor (Z.lor (byte_to_Z b0) (Z.shiftl (byte_to_Z b1) 8))
                           (Z.shiftl (byte_to_Z b2) 16))
                    (Z.shiftl (byte_to_Z b3) 24))
  | _ => Panics IndexOutOfRange
  end.

(** The built-in [copy(dst, src)]: [dst] afterwards. *)
Definition copy (dst src : list byte) : list byte :=
  take (length dst) src ++ drop (length src) dst.

(** The number a string of decimal digits writes, the leading digit
    first; what [strconv.ParseInt(s, 10, 64)] reads from such a string. *)
Fixpoint decimal_value (s : list byte) : Z :=
  match s with
  | [] => 0
  | c :: s' => (byte_to_Z c - 48) * 10 ^ len s' + decimal_value s'
  end.

(** A decimal digit, ['0'] to ['9']. *)
Definition is_digit (c : byte) : bool :=
  (48 <=? byte_to_Z c) && (byte_to_Z c <=? 57).

End Go.

Import Go.

(* ===================================================================== *)
(** * server/functions                                                   *)
(* ===================================================================== *)

Module Functions.

(** The parameter types of the function framework, with the fields the
    overloads below read and write. *)
Record StringType : Type := mkStringType {
  StringType_Value : list byte;
  StringType_IsNull : bool
}.

Record IntegerType : Type := mkIntegerType {
  IntegerType_Value : Z;
  IntegerType_IsNull : bool
}.

(** [left_string] is one of the overloads of [left].  Its error result is
    [nil] on every returning path, so only the [StringType] is kept. *)
Definition left_string (string : StringType) (n : IntegerType) : outcome StringType :=
  if StringType_IsNull string || IntegerType_IsNull n then
    Return (mkStringType [] true)
  else if IntegerType_Value n >=? 0 then
    v ← slice_to (StringType_Value string) (IntegerType_Value n);
    Return (mkStringType v false)
  else
    v ← slice_to (StringType_Value string)
                 (len (StringType_Value string) + IntegerType_Value n);
    Return (mkStringType v false).

(** Non-null arguments. *)
Definition str (s : list byte) : StringType := mkStringType s false.
Definition int (n : Z) : IntegerType := mkIntegerType n false.

(** ** char_length.go *)

(** The [Callable] of [char_length_varchar]: the number of runes of the
    string, as an [int32]; the error result is always [nil]. *)
Definition char_length_varchar (val1 : any) : outcome any :=
  match val1 with
  | ANil => Return ANil
  | AString s => Return (AInt32 (int32 (Z.of_nat (length (runes s)))))
  | _ => Panics InterfaceConversion
  end.

End Functions.

(* ===================================================================== *)
(** * server/types                                                       *)
(* ===================================================================== *)

Module Types.

(** [sql.ConvertInRange]. *)
Inductive ConvertInRange : Type := InRange | OutOfRange.

(** The errors the types return. *)
Inductive error : Type :=
| ErrInvalidType.

(** The result triple of a [Convert] method. *)
Definition converted : Type := any * ConvertInRange * option error.

(** ** xid.go *)

Section Xid.

(** [convertUint32] is shared by the 32-bit unsigned types and lives in
    another file of the package; [XidType.Convert] only forwards to it. *)
Variable convertUint32 : any -> converted.

Definition XidType_Convert (val : any) : converted := convertUint32 val.

(** [SerializeValue]: a [nil] slice is [None]. *)
Definition XidType_SerializeValue (val : any)
  : outcome (option (list byte) * option error) :=
  match val with
  | ANil => Return (None, None)
  | _ =>
      let '(converted, _, err) := XidType_Convert val in
      match err with
      | Some e => Return (None, Some e)
      | None =>
          match converted with
          | AUint32 c => Return (Some (PutUint32 (uint32 (uint32 c + 2 ^ 31))), None)
          | _ => Panics InterfaceConversion
          end
      end
  end.

(** [DeserializeValue]. *)
Definition XidType_DeserializeValue (val : list byte)
  : outcome (any * option error) :=
  if len val =? 0 then Return (ANil, None)
  else
    x ← Uint32 val;
    Return (AUint32 (uint32 (uint32 (x - 2 ^ 31))), None).

End Xid.

(** A [[]byte] result as the argument of a later call: the [nil] slice has
    no elements. *)
Definition slice_of (b : option (list byte)) : list byte :=
  match b with
  | Some l => l
  | None => []
  end.

(** An instance of the [convertUint32] parameter: a [uint32] is kept as it
    is, [nil] stays [nil], any other dynamic type is rejected. *)
Definition convertUint32_strict (val : any) : converted :=
  match val with
  | AUint32 v => (AUint32 v, InRange, None)
  | ANil => (ANil, InRange, None)
  | _ => (ANil, OutOfRange, Some ErrInvalidType)
  end.

(** ** varchar.go *)

Definition VarCharMaxLength : Z := 10485760.
Definition varCharInline : Z := 16383.

Record VarCharType : Type := mkVarCharType { Length : Z }.

Definition VarCharInline : VarCharType := mkVarCharType varCharInline.
Definition VarCharMax : VarCharType := mkVarCharType VarCharMaxLength.

(** The truncation loop of [Convert],
    [for i := uint32(0); i < b.Length; i++ { _, size := DecodeRune(val); val = val[size:] }],
    run for [n] iterations. *)
Fixpoint truncate_loop (n : nat) (val : list byte) : outcome (list byte) :=
  match n with
  | O => Return val
  | S n' =>
      let '(_, size) := DecodeRune val in
      val' ← slice_from val size;
      truncate_loop n' val'
  end.

(** The body shared by the [string] and [[]byte] cases of [Convert]; both
    return a [string]. *)
Definition VarCharType_Convert_text (b : VarCharType) (val : list byte)
  : outcome converted :=
  if uint32 (len val) >? Length b then
    if uint32 (RuneCount val) >? Length b then
      let start := val in
      val' ← truncate_loop (Z.to_nat (Length b)) val;
      r ← slice_to start (len start - len val');
      Return (AString r, InRange, None)
    else Return (AString val, InRange, None)
  else Return (AString val, InRange, None).

Definition VarCharType_Convert (b : VarCharType) (val : any) : outcome converted :=
  match val with
  | AString val => VarCharType_Convert_text b val
  | ABytes val => VarCharType_Convert_text b val
  | ANil => Return (ANil, InRange, None)
  | _ => Return (ANil, OutOfRange, Some ErrInvalidType)
  end.

(** The other methods of varchar.go. *)

(** [Compare]: [nil] sorts first; other values are compared as the strings
    [Convert] makes of them. *)
Definition VarCharType_Compare (b : VarCharType) (v1 v2 : any)
  : outcome (Z * option error) :=
  match v1, v2 with
  | ANil, ANil => Return (0, None)
  | _, ANil => Return (1, None)
  | ANil, _ => Return (-1, None)
  | _, _ =>
      '(ac, _, err) ← VarCharType_Convert b v1;
      match err with
      | Some e => Return (0, Some e)
      | None =>
          '(bc, _, err) ← VarCharType_Convert b v2;
          match err with
          | Some e => Return (0, Some e)
          | None =>
              match ac, bc with
              | AString ab, AString bb =>
                  if decide (ab = bb) then Return (0, None)
                  else if string_lt ab bb then Return (-1, None)
                  else Return (1, None)
              | _, _ => Panics InterfaceConversion
              end
          end
      end
  end.

(** [FormatValue]. *)
Definition VarCharType_FormatValue (b : VarCharType) (val : any)
  : outcome (list byte * option error) :=
  match val with
  | ANil => Return ([], None)
  | _ =>
      '(converted, _, err) ← VarCharType_Convert b val;
      match err with
      | Some e => Return ([], Some e)
      | None =>
          match converted with
          | AString s => Return (s, None)
          | _ => Panics InterfaceConversion
          end
      end
  end.

(** [SerializeValue]: a [nil] slice is [None]. *)
Definition VarCharType_SerializeValue (b : VarCharType) (val : any)
  : outcome (option (list byte) * option error) :=
  match val with
  | ANil => Return (None, None)
  | _ =>
      '(converted, _, err) ← VarCharType_Convert b val;
      match err with
      | Some e => Return (None, Some e)
      | None =>
          match converted with
          | AString s => Return (Some s, None)
          | _ => Panics InterfaceConversion
          end
      end
  end.

(** [DeserializeValue]. *)
Definition VarCharType_DeserializeValue (val : list byte) : any * option error :=
  if len val =? 0 then (ANil, None) else (AString val, None).

(** [FormatSerializedValue]. *)
Definition VarCharType_FormatSerializedValue (b : VarCharType) (val : list byte)
  : outcome (list byte * option error) :=
  let '(deserialized, err) := VarCharType_DeserializeValue val in
  match err with
  | Some e => Return ([], Some e)
  | None => VarCharType_FormatValue b deserialized
  end.

(** [MaxTextResponseByteLength]: a [uint32] product. *)
Definition VarCharType_MaxTextResponseByteLength (b : VarCharType) : Z :=
  uint32 (Length b * 4).

(** [SerializedCompare], which xid.go and char.go have in the same words. *)
Definition SerializedCompare (v1 v2 : list byte) : Z * option error :=
  if (len v1 =? 0) && (len v2 =? 0) then (0, None)
  else if (len v1 >? 0) && (len v2 =? 0) then (1, None)
  else if (len v1 =? 0) && (len v2 >? 0) then (-1, None)
  else (bytes_Compare v1 v2, None).

(** The other methods of xid.go. *)

(** [MaxTextResponseByteLength]. *)
Definition XidType_MaxTextResponseByteLength : Z := 4.

Section XidMethods.

Variable convertUint32 : any -> converted.

(** [FormatValue]: the xid in decimal. *)
Definition XidType_FormatValue (val : any) : outcome (list byte * option error) :=
  match val with
  | ANil => Return ([], None)
  | _ =>
      let '(converted, _, err) := XidType_Convert convertUint32 val in
      match err with
      | Some e => Return ([], Some e)
      | None =>
          match converted with
          | AUint32 c => Return (FormatInt c, None)
          | _ => Panics InterfaceConversion
          end
      end
  end.

(** [FormatSerializedValue]. *)
Definition XidType_FormatSerializedValue (val : list byte)
  : outcome (list byte * option error) :=
  '(deserialized, err) ← XidType_DeserializeValue val;
  match err with
  | Some e => Return ([], Some e)
  | None => XidType_FormatValue deserialized
  end.

End XidMethods.

End Types.

(* ===================================================================== *)
(** * server/types: char                                                 *)
(* ===================================================================== *)

Module Char.
Import Types.

(** The errors [CharType] returns: [sql.ErrInvalidType], and the error
    [fmt.Errorf] builds from a format and its argument. *)
Inductive error : Type :=
| ErrInvalidType
| Errorf (format : string) (args : list (list byte)).

(** The result triple of [Convert]. *)
Definition converted : Type := any * ConvertInRange * option error.

Record CharType : Type := mkCharType { CharType_Length : Z }.

(** [String]: [fmt.Sprintf("character(%d)", b.Length)]. *)
Definition CharType_String (b : CharType) : list byte :=
  String.list_byte_of_string "character(" ++ FormatInt (CharType_Length b)
    ++ String.list_byte_of_string ")".

(** The test of the loop [for _, r := range val { if r != ' ' {...} }] over
    a string: every rune is a space. *)
Definition all_spaces_runes (val : list byte) : bool :=
  forallb (fun r => r =? 32) (runes val).

(** The same loop over a byte slice: every byte is a space. *)
Definition all_spaces_bytes (val : list byte) : bool :=
  forallb (fun c => byte_to_Z c =? 32) val.

Section Char.

(** Declared in other files of the package: the length that stands for
    "unbounded", the conversion of [Text], the size of the header of a
    serialised type and the bytes [SerializationID_Char.ToByteSlice(0)]. *)
Variable stringUnbounded : Z.
Variable Text_Convert : any -> outcome converted.
Variable serializationIDHeaderSize : Z.
Variable SerializationID_Char_bytes : list byte.

Definition BpChar : CharType := mkCharType stringUnbounded.

(** [Convert]. *)
Definition CharType_Convert (b : CharType) (val : any) : outcome converted :=
  if CharType_Length b =? stringUnbounded then Text_Convert val
  else
    match val with
    | AString val =>
        let runeLength := uint32 (RuneCount val) in
        if runeLength >? CharType_Length b then
          let startString := val in
          val' ← truncate_loop (Z.to_nat (CharType_Length b)) val;
          if all_spaces_runes val' then
            r ← slice_to startString (len startString - len val');
            Return (AString r, InRange, None)
          else
            Return (ANil, OutOfRange,
                    Some (Errorf "value too long for type %s" [CharType_String b]))
        else if runeLength <? CharType_Length b then
          pad ← Repeat [x20] (uint32 (CharType_Length b - runeLength));
          Return (AString (val ++ pad), InRange, None)
        else Return (AString val, InRange, None)
    | ABytes val =>
        let runeLength := uint32 (RuneCount val) in
        if runeLength >? CharType_Length b then
          if uint32 (RuneCount val) >? CharType_Length b then
            let startBytes := val in
            val' ← truncate_loop (Z.to_nat (CharType_Length b)) val;
            if all_spaces_bytes val' then
              r ← slice_to startBytes (len startBytes - len val');
              Return (AString r, InRange, None)
            else
              Return (ANil, OutOfRange,
                      Some (Errorf "value too long for type %s" [CharType_String b]))
          else Return (AString val, InRange, None)
        else if runeLength <? CharType_Length b then
          pad ← Repeat [x20] (uint32 (CharType_Length b - runeLength));
          Return (AString (val ++ pad), InRange, None)
        else Return (AString val, InRange, None)
    | ANil => Return (ANil, InRange, None)
    | _ => Return (ANil, OutOfRange, Some ErrInvalidType)
    end.

(** [Compare]: like that of varchar, on the converted strings without
    the spaces at their ends. *)
Definition CharType_Compare (b : CharType) (v1 v2 : any)
  : outcome (Z * option error) :=
  match v1, v2 with
  | ANil, ANil => Return (0, None)
  | _, ANil => Return (1, None)
  | ANil, _ => Return (-1, None)
  | _, _ =>
      '(ac, _, err) ← CharType_Convert b v1;
      match err with
      | Some e => Return (0, Some e)
      | None =>
          '(bc, _, err) ← CharType_Convert b v2;
          match err with
          | Some e => Return (0, Some e)
          | None =>
              match ac, bc with
              | AString ac, AString bc =>
                  let ab := TrimRight ac x20 in
                  let bb := TrimRight bc x20 in
                  if decide (ab = bb) then Return (0, None)
                  else if string_lt ab bb then Return (-1, None)
                  else Return (1, None)
              | _, _ => Panics InterfaceConversion
              end
          end
      end
  end.

(** [SerializeType]: a header, then the length in four little-endian
    bytes, written through the slice [t[serializationIDHeaderSize:]]. *)
Definition CharType_SerializeType (b : CharType) : outcome (list byte * option error) :=
  let t := replicate (Z.to_nat (serializationIDHeaderSize + 4)) x00 in
  let t := copy t SerializationID_Char_bytes in
  tail ← slice_from t serializationIDHeaderSize;
  tail ← LittleEndian_PutUint32 tail (CharType_Length b);
  Return (take (Z.to_nat serializationIDHeaderSize) t ++ tail, None).

(** [deserializeType]; the error of an unknown version names the version
    and the type. *)
Definition CharType_deserializeType (b : CharType) (version : Z) (metadata : list byte)
  : outcome (option CharType * option error) :=
  if version =? 0 then
    length ← LittleEndian_Uint32 metadata;
    Return (Some (mkCharType length), None)
  else
    Return (None, Some (Errorf "version %d is not yet supported for %s"
                               [FormatInt version; CharType_String b])).

(** [FormatValue]. *)
Definition CharType_FormatValue (b : CharType) (val : any)
  : outcome (list byte * option error) :=
  match val with
  | ANil => Return ([], None)
  | _ =>
      '(converted, _, err) ← CharType_Convert b val;
      match err with
      | Some e => Return ([], Some e)
      | None =>
          match converted with
          | AString s => Return (s, None)
          | _ => Panics InterfaceConversion
          end
      end
  end.

(** [SerializeValue]: a [nil] slice is [None]. *)
Definition CharType_SerializeValue (b : CharType) (val : any)
  : outcome (option (list byte) * option error) :=
  match val with
  | ANil => Return (None, None)
  | _ =>
      '(converted, _, err) ← CharType_Convert b val;
      match err with
      | Some e => Return (None, Some e)
      | None =>
          match converted with
          | AString s => Return (Some s, None)
          | _ => Panics InterfaceConversion
          end
      end
  end.

(** [DeserializeValue]. *)
Definition CharType_DeserializeValue (val : list byte) : any * option error :=
  if len val =? 0 then (ANil, None) else (AString val, None).

(** [MaxTextResponseByteLength]: [math.MaxUint32] when unbounded, else a
    [uint32] product. *)
Definition CharType_MaxTextResponseByteLength (b : CharType) : Z :=
  if CharType_Length b =? stringUnbounded then 2 ^ 32 - 1
  else uint32 (CharType_Length b * 4).

End Char.

End Char.

(* ===================================================================== *)
(** * server/cast: oid                                                   *)
(* ===================================================================== *)

Module Cast.

(** The function of the casts from [Oid] to [Text], explicit and implicit:
    [strconv.FormatInt(int64(val.(uint32)), 10)]; the type assertion
    panics on a value of another dynamic type. *)
Definition oid_Text (val : any) : outcome (list byte) :=
  match val with
  | AUint32 v => Return (FormatInt v)
  | _ => Panics InterfaceConversion
  end.

End Cast.

(* ===================================================================== *)
(** * server/ast: type references                                        *)
(* ===================================================================== *)

Module Ast.
Import Types.

(** The error [fmt.Errorf] builds from a format and its argument. *)
Inductive error : Type :=
| Errorf (format : string) (arg : Z).

(** The case [oid.T_varchar] of [nodeResolvableTypeReference], on
    [columnType.Width()], an [int32]: the type the column resolves to, or
    the error. *)
Definition nodeResolvableTypeReference_varchar (Width : Z) : VarCharType + error :=
  let width := uint32 Width in
  if width >? VarCharMaxLength then
    inr (Errorf "length for type varchar cannot exceed %d" VarCharMaxLength)
  else
    let width := if width =? 0 then VarCharMaxLength else width in
    inl (mkVarCharType width).

End Ast.

(* ===================================================================== *)
(** * postgres/connection                                                *)
(* ===================================================================== *)

Module Connection.

(** ** The message format

    The message files build values of [MessageFormat] out of [Field]s and
    use the methods [Copy], [Field], [MustWrite], [MustGet] and
    [MatchesStructure]; the file that declares them is not among the
    sources.  The records below have the fields the message files
    initialise. *)

(** Modelled from the spec: the declaration of the wire types is missing.
    [Byte1], [Int32] and [ByteN] are the constants the message files use;
    the list is completed from section 3 of the specification: fixed
    1-byte ([Byte1]), fixed 2-byte ([Int16]), fixed 4-byte signed integer
    ([Int32]), null-terminated string ([CString]), length-prefixed byte
    string ([LengthBytes]), raw remaining bytes ([ByteN]). *)
Inductive FieldType : Type :=
| Byte1 | Int16 | Int32 | CString | LengthBytes | ByteN.

(** Modelled from the spec: the declaration of the flags is missing.
    [Header] and [MessageLengthInclusive] are the constants the message
    files use (the specification's IsHeaderTag and IsInclusiveLength);
    [NoFlags] is the zero value of a field that sets none. *)
Inductive FieldFlags : Type :=
| NoFlags | Header | MessageLengthInclusive.

#[global] Instance FieldType_eq_dec : EqDecision FieldType.
Proof. solve_decision. Defined.

#[global] Instance FieldFlags_eq_dec : EqDecision FieldFlags.
Proof. solve_decision. Defined.

Record Field : Type := mkField {
  Field_Name : string;
  Field_Type : FieldType;
  Field_Flags : FieldFlags;
  Field_Data : any
}.

Abbreviation FieldGroup := (list Field).

Record MessageFormat : Type := mkMessageFormat {
  MessageFormat_Name : string;
  MessageFormat_Fields : FieldGroup
}.

#[global] Instance Field_eq_dec : EqDecision Field.
Proof. solve_decision. Defined.

#[global] Instance MessageFormat_eq_dec : EqDecision MessageFormat.
Proof. solve_decision. Defined.

(** Modelled from the spec: the error taxonomy of section 7, for the
    errors the codec and the catalog raise. *)
Inductive error : Type :=
| MalformedMessage
| UnknownMessageType (tag : byte)
| SchemaMismatch.

(** A Go result pair [(T, error)] in which exactly one side is non-nil. *)
Inductive result (A : Type) : Type :=
| Ok (a : A)
| Err (e : error).

Arguments Ok {A} a.
Arguments Err {A} e.

#[global] Instance result_ret : MRet result := @Ok.

#[global] Instance result_bind : MBind result := fun A B k m =>
  match m with
  | Ok a => k a
  | Err e => Err e
  end.

(** Modelled from the spec: [Copy] is missing.  A message instance is
    constructed fresh per call and the default schema is never mutated
    (section 3); values are immutable here, so the copy is the value. *)
Definition Copy (m : MessageFormat) : MessageFormat := m.

(** Modelled from the spec: [Field(name).MustWrite(value)] is missing.  A
    message instance is an ordered map from field name to value
    (section 3): the write replaces the value of the first field called
    [name]; a [Must] method panics where there is nothing to write to. *)
Fixpoint write_field (fs : FieldGroup) (name : string) (value : any)
  : option FieldGroup :=
  match fs with
  | [] => None
  | f :: fs' =>
      if decide (Field_Name f = name)
      then Some (mkField (Field_Name f) (Field_Type f) (Field_Flags f) value :: fs')
      else fs'' ← write_field fs' name value; Some (f :: fs'')
  end.

(** Modelled from the spec: [MustWrite] is missing; see [write_field]. *)
Definition MustWrite (m : MessageFormat) (name : string) (value : any)
  : outcome MessageFormat :=
  match write_field (MessageFormat_Fields m) name value with
  | Some fs => Return (mkMessageFormat (MessageFormat_Name m) fs)
  | None => Panics MustFailed
  end.

(** Modelled from the spec: [Field(name).MustGet()] is missing; it reads
    the value of the first field called [name]. *)
Fixpoint read_field (fs : FieldGroup) (name : string) : option any :=
  match fs with
  | [] => None
  | f :: fs' =>
      if decide (Field_Name f = name) then Some (Field_Data f)
      else read_field fs' name
  end.

(** Modelled from the spec: [MustGet] is missing; see [read_field].  A
    [Must] method panics where there is nothing to read. *)
Definition MustGet (m : MessageFormat) (name : string) : outcome any :=
  match read_field (MessageFormat_Fields m) name with
  | Some v => Return v
  | None => Panics MustFailed
  end.

(** Modelled from the spec: what section 3 compares of two schemas, the
    name, wire type and flags of every field, in order. *)
Definition shape (m : MessageFormat) : list (string * FieldType * FieldFlags) :=
  (fun f => (Field_Name f, Field_Type f, Field_Flags f)) <$> MessageFormat_Fields m.

(** Modelled from the spec: [MatchesStructure] is missing.  Section 4.1:
    a structural equality check over field name/type/flag sequences, which
    fails with SchemaMismatch if the shapes differ.  [None] is the [nil]
    error. *)
Definition MatchesStructure (m other : MessageFormat) : option error :=
  if decide (shape m = shape other) then None else Some SchemaMismatch.

(** ** The codec engine *)

(** [binary.BigEndian.PutUint16] on a fresh two-byte slice. *)
Definition PutUint16 (v : Z) : list byte :=
  [ byte_of_Z (Z.shiftr v 8); byte_of_Z v ].

(** Modelled from the spec: the byte layout of one field value (sections
    4.1 and 6): integers big-endian, strings null-terminated, a
    length-prefixed byte string after a 4-byte length header computed from
    the payload, raw bytes as they are.  A value whose dynamic type the wire
    type cannot lay out is refused. *)
Definition serialize (t : FieldType) (d : any) : result (list byte) :=
  match t, d with
  | Byte1, AInt32 v => Ok [byte_of_Z v]
  | Int16, AInt32 v => Ok (PutUint16 v)
  | Int32, AInt32 v => Ok (PutUint32 (uint32 v))
  | CString, AString s => Ok (s ++ [x00])
  | LengthBytes, ABytes s => Ok (PutUint32 (uint32 (len s)) ++ s)
  | ByteN, ABytes s => Ok s
  | _, _ => Err MalformedMessage
  end.

(** Modelled from the spec: the engine's encode is missing.  Section 4.1:
    every field is written in declared order; the value written for the
    field flagged [MessageLengthInclusive] is computed from the fields
    serialised after it: the size of the length field itself plus every
    subsequent field.  The value goes into a 4-byte field, so its low 32
    bits are written. *)
Fixpoint encode_fields (fs : FieldGroup) : result (list byte) :=
  match fs with
  | [] => Ok []
  | f :: fs' =>
      staging ← encode_fields fs';
      match Field_Flags f with
      | MessageLengthInclusive =>
          Ok (PutUint32 (uint32 (4 + len staging)) ++ staging)
      | _ =>
          b ← serialize (Field_Type f) (Field_Data f);
          Ok (b ++ staging)
      end
  end.

(** Modelled from the spec: the engine's encode of a message format. *)
Definition Encode (m : MessageFormat) : result (list byte) :=
  encode_fields (MessageFormat_Fields m).

(** Modelled from the spec: reading a null-terminated string, the bytes
    of [buf] before its first zero byte and the bytes after that byte. *)
Fixpoint split_null (buf : list byte) : option (list byte * list byte) :=
  match buf with
  | [] => None
  | b :: rest =>
      if decide (b = x00) then Some ([], rest)
      else '(s, after) ← split_null rest; Some (b :: s, after)
  end.

(** Modelled from the spec: reading one field value (section 4.1).  Each
    wire type consumes exactly the bytes it specifies: fixed-width types a
    fixed count, a length-prefixed type its own length header first, raw
    remaining bytes whatever is left; the read fails with MalformedMessage
    if fewer bytes are available than the field requires. *)
Definition read (t : FieldType) (buf : list byte) : result (any * list byte) :=
  match t with
  | Byte1 =>
      match buf with
      | b :: rest => Ok (AInt32 (byte_to_Z b), rest)
      | [] => Err MalformedMessage
      end
  | Int16 =>
      match buf with
      | b0 :: b1 :: rest =>
          Ok (AInt32 ((byte_to_Z b0 * 256 + byte_to_Z b1 + 2 ^ 15) mod 2 ^ 16 - 2 ^ 15),
              rest)
      | _ => Err MalformedMessage
      end
  | Int32 =>
      match Uint32 buf with
      | Return v => Ok (AInt32 (int32 v), drop 4 buf)
      | Panics _ => Err MalformedMessage
      end
  | CString =>
      match split_null buf with
      | Some (s, rest) => Ok (AString s, rest)
      | None => Err MalformedMessage
      end
  | LengthBytes =>
      match Uint32 buf with
      | Return v =>
          let n := int32 v in
          let rest := drop 4 buf in
          if (n <? 0) || (len rest <? n) then Err MalformedMessage
          else Ok (ABytes (take (Z.to_nat n) rest), drop (Z.to_nat n) rest)
      | Panics _ => Err MalformedMessage
      end
  | ByteN => Ok (ABytes buf, [])
  end.

(** Modelled from the spec: the engine's decode is missing.  Section 4.1:
    the fields are read strictly in declared order (the header tag like
    any other one-byte field: dispatch is the catalog's job); once the
    length field is read, the reads after it are bounded to that many bytes,
    the length counting its own four bytes.  The result pairs the fields
    read with the bytes left unconsumed. *)
Fixpoint decode_fields (fs : FieldGroup) (buf : list byte)
  : result (FieldGroup * list byte) :=
  match fs with
  | [] => Ok ([], buf)
  | f :: fs' =>
      '(v, rest) ← read (Field_Type f) buf;
      let f' := mkField (Field_Name f) (Field_Type f) (Field_Flags f) v in
      match Field_Flags f with
      | MessageLengthInclusive =>
          match v with
          | AInt32 n =>
              if (n <? 4) || (len rest <? n - 4) then Err MalformedMessage
              else
                '(fs'', unread) ← decode_fields fs' (take (Z.to_nat (n - 4)) rest);
                Ok (f' :: fs'', unread ++ drop (Z.to_nat (n - 4)) rest)
          | _ => Err MalformedMessage
          end
      | _ =>
          '(fs'', unread) ← decode_fields fs' rest;
          Ok (f' :: fs'', unread)
      end
  end.

(** Modelled from the spec: the engine's decode of a frame against a
    schema; it fails with MalformedMessage if bytes remain unconsumed
    after all fields are read. *)
Definition Decode (raw : list byte) (schema : MessageFormat) : result MessageFormat :=
  '(fs, unread) ← decode_fields (MessageFormat_Fields schema) raw;
  match unread with
  | [] => Ok (mkMessageFormat (MessageFormat_Name schema) fs)
  | _ :: _ => Err MalformedMessage
  end.

(** ** The message catalog *)

Section Catalog.

(** The messages of the catalog. *)
Context {M : Type}.

(** Modelled from the spec: the declaration of the interface [Message]
    is missing.  This is what the registry keeps of a registered message:
    its [DefaultMessage] and its [Decode] method. *)
Record prototype : Type := mkPrototype {
  DefaultMessage : MessageFormat;
  Decode_method : MessageFormat -> outcome (result M)
}.

(** Modelled from the spec: the tag byte under which a message is
    registered, the constant its schema's [Header] field carries. *)
Fixpoint header_tag (fs : FieldGroup) : option byte :=
  match fs with
  | [] => None
  | f :: fs' =>
      match Field_Flags f, Field_Data f with
      | Header, AInt32 v => Some (byte_of_Z v)
      | Header, _ => None
      | _, _ => header_tag fs'
      end
  end.

(** Modelled from the spec: [AddMessageHeader] is missing.  Sections 4.2
    and 8: the registry maps each header tag to the prototype that decodes
    messages bearing it; registering a tag twice with the same schema is a
    no-op, with a conflicting one it fails at initialisation. *)
Definition AddMessageHeader (reg : gmap byte prototype) (p : prototype)
  : outcome (gmap byte prototype) :=
  match header_tag (MessageFormat_Fields (DefaultMessage p)) with
  | None => Panics MustFailed
  | Some tag =>
      match reg !! tag with
      | None => Return (<[tag := p]> reg)
      | Some q =>
          if decide (DefaultMessage q = DefaultMessage p) then Return reg
          else Panics MustFailed
      end
  end.

(** Modelled from the spec: receiving a frame is missing.  Section 4.2:
    (a) peek the header tag byte to select the candidate from the registry,
    an unknown tag failing with UnknownMessageType carrying the offending
    byte; (b) invoke that variant's decode on the frame decoded against its
    own default schema. *)
Definition Receive (reg : gmap byte prototype) (frame : list byte)
  : outcome (result M) :=
  match frame with
  | [] => Return (Err MalformedMessage)
  | tag :: _ =>
      match reg !! tag with
      | None => Return (Err (UnknownMessageType tag))
      | Some p =>
          match Decode frame (DefaultMessage p) with
          | Ok s => Decode_method p s
          | Err e => Return (Err e)
          end
      end
  end.

End Catalog.

Arguments prototype M : clear implicits.

End Connection.

(* ===================================================================== *)
(** * postgres/messages                                                  *)
(* ===================================================================== *)

Module Messages.
Import Connection.

(** ** copy_data.go *)

Record CopyData : Type := mkCopyData { CopyData_Data : list byte }.

(** [int32('d')] is 100. *)
Definition copyDataDefault : MessageFormat :=
  mkMessageFormat "CopyData"
    [ mkField "Header" Byte1 Header (AInt32 100);
      mkField "MessageLength" Int32 MessageLengthInclusive (AInt32 0);
      mkField "Data" ByteN NoFlags (ABytes []) ].

Definition CopyData_DefaultMessage : MessageFormat := copyDataDefault.

Definition CopyData_Encode (m : CopyData) : outcome (result MessageFormat) :=
  let outputMessage := Copy CopyData_DefaultMessage in
  outputMessage ← MustWrite outputMessage "Data" (ABytes (CopyData_Data m));
  Return (Ok outputMessage).

Definition CopyData_Decode (s : MessageFormat) : outcome (result CopyData) :=
  match MatchesStructure s CopyData_DefaultMessage with
  | Some err => Return (Err err)
  | None =>
      d ← MustGet s "Data";
      match d with
      | ABytes data => Return (Ok (mkCopyData data))
      | _ => Panics InterfaceConversion
      end
  end.

(** The message format [CopyData.Encode] builds, and the one the engine
    reads back from its bytes: the length field holds the placeholder 0 in
    the first and the length of the frame in the second. *)
Definition copyDataFormat (length : Z) (data : list byte) : MessageFormat :=
  mkMessageFormat "CopyData"
    [ mkField "Header" Byte1 Header (AInt32 100);
      mkField "MessageLength" Int32 MessageLengthInclusive (AInt32 length);
      mkField "Data" ByteN NoFlags (ABytes data) ].

(** ** parse_complete.go *)

Inductive ParseComplete : Type := mkParseComplete.

(** [int32('1')] is 49. *)
Definition parseCompleteDefault : MessageFormat :=
  mkMessageFormat "ParseComplete"
    [ mkField "Header" Byte1 Header (AInt32 49);
      mkField "MessageLength" Int32 MessageLengthInclusive (AInt32 4) ].

Definition ParseComplete_defaultMessage : MessageFormat := parseCompleteDefault.

Definition ParseComplete_encode (m : ParseComplete) : outcome (result MessageFormat) :=
  Return (Ok (Copy ParseComplete_defaultMessage)).

Definition ParseComplete_decode (s : MessageFormat) : outcome (result ParseComplete) :=
  match MatchesStructure s ParseComplete_defaultMessage with
  | Some err => Return (Err err)
  | None => Return (Ok mkParseComplete)
  end.

(** ** The catalog of this slice *)

(** A value of the interface [Message]. *)
Inductive Message : Type :=
| MCopyData (m : CopyData)
| MParseComplete (m : ParseComplete).

Definition Message_Encode (m : Message) : outcome (result MessageFormat) :=
  match m with
  | MCopyData m => CopyData_Encode m
  | MParseComplete m => ParseComplete_encode m
  end.

(** The result of a [Decode] method, as the interface value the method
    is declared to return. *)
Definition as_Message {A : Type} (inj : A -> Message) (r : outcome (result A))
  : outcome (result Message) :=
  match r with
  | Return (Ok a) => Return (Ok (inj a))
  | Return (Err e) => Return (Err e)
  | Panics p => Panics p
  end.

Definition CopyData_prototype : prototype Message :=
  mkPrototype CopyData_DefaultMessage
    (fun s => as_Message MCopyData (CopyData_Decode s)).

Definition ParseComplete_prototype : prototype Message :=
  mkPrototype ParseComplete_defaultMessage
    (fun s => as_Message MParseComplete (ParseComplete_decode s)).

(** The default schemas the [init] functions initialise. *)
Definition catalog : list MessageFormat :=
  [ copyDataDefault; parseCompleteDefault ].

(** The registry after the [init] functions have run: copy_data.go calls
    [AddMessageHeader(CopyData{})]; parse_complete.go registers no header. *)
Definition registry : outcome (gmap byte (prototype Message)) :=
  AddMessageHeader ∅ CopyData_prototype.

(** The framing of a tagged message: a one-byte [Header] field first, then
    a four-byte [MessageLengthInclusive] field, then payload fields that
    carry neither flag. *)
Definition tagged_framing (m : MessageFormat) : bool :=
  match MessageFormat_Fields m with
  | h :: l :: payload =>
      bool_decide (Field_Type h = Byte1) && bool_decide (Field_Flags h = Header)
      && bool_decide (Field_Type l = Int32)
      && bool_decide (Field_Flags l = MessageLengthInclusive)
      && forallb (fun f => bool_decide (Field_Flags f = NoFlags)) payload
  | _ => false
  end.

(** How many fields carry a flag. *)
Definition count_flag (fl : FieldFlags) (m : MessageFormat) : nat :=
  length (filter (fun f => Field_Flags f = fl) (MessageFormat_Fields m)).

End Messages.

(* ===================================================================== *)
(** * server                                                             *)
(* ===================================================================== *)

Module Server.

(** ** listener.go *)

Section Listener.

(** [net.Conn] and the handler of [mysql.ListenerConfig]. *)
Context {Conn Handler : Type}.

(** What one call of [l.listener.Accept()] returns: a connection, or an
    error, kept as the text of [err.Error()]. *)
Inductive accepted : Type :=
| AcceptConn (conn : Conn)
| AcceptErr (err : string).

(** [Listener]; the [net.Listener] it wraps is the source of the
    [accepted] values. *)
Record Listener : Type := mkListener { cfg_Handler : Handler }.

(** Modelled from the spec: [NewConnectionHandler] is missing; it creates
    the connection's own state machine (section 2) and is kept here as the
    pair of its arguments. *)
Record ConnectionHandler : Type := NewConnectionHandler {
  ConnectionHandler_conn : Conn;
  ConnectionHandler_handler : Handler
}.

(** What [Accept] does to the outside: start a goroutine, print. *)
Inductive event : Type :=
| Go_HandleConnection (connectionHandler : ConnectionHandler)
| Printf (format : string) (err : string).

(** Where the loop is once the accepted values at hand are used up. *)
Inductive loop : Type :=
| Accepting   (* blocked in [l.listener.Accept()] *)
| Returned.   (* left by [break] *)

Definition closed_text : string := "use of closed network connection".

(** [Listener.Accept]: the loop, run on the values the successive calls
    of [l.listener.Accept()] return. *)
Fixpoint Accept (l : Listener) (results : list accepted) : list event * loop :=
  match results with
  | [] => ([], Accepting)
  | AcceptErr err :: results' =>
      if decide (err = closed_text) then ([], Returned)
      else
        let '(events, st) := Accept l results' in
        (Printf "Unable to accept connection:\n%v\n" err :: events, st)
  | AcceptConn conn :: results' =>
      let connectionHandler := NewConnectionHandler conn (cfg_Handler l) in
      let '(events, st) := Accept l results' in
      (Go_HandleConnection connectionHandler :: events, st)
  end.

(** The accepted values up to the first error that says the listener is
    closed. *)
Fixpoint until_closed (results : list accepted) : list accepted :=
  match results with
  | [] => []
  | AcceptErr err :: results' =>
      if decide (err = closed_text) then []
      else AcceptErr err :: until_closed results'
  | AcceptConn conn :: results' => AcceptConn conn :: until_closed results'
  end.

(** The one thing the loop does for an accepted value. *)
Definition handled (l : Listener) (a : accepted) : event :=
  match a with
  | AcceptConn conn => Go_HandleConnection (NewConnectionHandler conn (cfg_Handler l))
  | AcceptErr err => Printf "Unable to accept connection:\n%v\n" err
  end.

End Listener.

Arguments accepted Conn : clear implicits.
Arguments Listener Handler : clear implicits.
Arguments ConnectionHandler Conn Handler : clear implicits.
Arguments event Conn Handler : clear implicits.

(** ** The connection protocol

    Modelled from the spec: the connection handler ([HandleConnection]
    and what it calls) is missing.  What follows is the part of section
    4.3 that concerns the Ready states and the extended-query sequence,
    with the discard-until-Sync rule as an explicit status, as section 9
    asks. *)

(** Modelled from the spec: the transaction status of section 3, which a
    ReadyForQuery message carries; with [FailedTransaction] the connection
    is failed and awaits a Sync. *)
Inductive TransactionStatus : Type :=
| Idle | InTransaction | FailedTransaction.

#[global] Instance TransactionStatus_eq_dec : EqDecision TransactionStatus.
Proof. solve_decision. Defined.

(** Modelled from the spec: the client's messages of the extended-query
    sequence (section 4.3). *)
Inductive FrontendMessage : Type :=
| Parse (name : string) (query : string)
| Bind (portal : string) (statement : string) (parameters : list (list byte))
| Describe (portal : bool) (name : string)
| Execute (portal : string) (maxRows : Z)
| Flush
| Sync.

Section Protocol.

(** The execution collaborator (section 6): statements it has compiled,
    rows it returns. *)
Context {Statement Row : Type}.

(** Compiling a query text, and executing a statement with its bound
    parameters: a finite sequence of rows and a completion tag, or an
    error ([None]). *)
Variable compile : string -> option Statement.
Variable execute : Statement -> list (list byte) -> option (list Row * string).

(** Modelled from the spec: a portal (glossary), a bound statement and
    what is left of its rows once it has been executed. *)
Record Portal : Type := mkPortal {
  Portal_statement : Statement;
  Portal_parameters : list (list byte);
  Portal_cursor : option (list Row * string)
}.

(** Modelled from the spec: the server's responses. *)
Inductive BackendMessage : Type :=
| ParseCompleteMsg
| BindComplete
| RowDescription
| DataRow (row : Row)
| CommandComplete (tag : string)
| PortalSuspended
| ErrorResponse
| ReadyForQuery (status : TransactionStatus).

(** Modelled from the spec: what a step does to the outside, calls of the
    collaborator and messages sent. *)
Inductive action : Type :=
| CallCompile (query : string)
| CallExecute (statement : Statement) (parameters : list (list byte))
| Send (message : BackendMessage)
| CloseSocket.

(** Modelled from the spec: the session state of section 3, the
    transaction status, whether a transaction was open when the connection
    failed, the prepared statements and the portals. *)
Record Session : Type := mkSession {
  status : TransactionStatus;
  transactionOpen : bool;
  statements : gmap string Statement;
  portals : gmap string Portal
}.

(** Modelled from the spec: an error during the sequence (section 4.3).
    The error is reported, the connection fails and remembers whether a
    transaction was open; the socket stays open. *)
Definition fails (s : Session) (before : list action) : Session * list action :=
  (mkSession FailedTransaction (bool_decide (status s = InTransaction))
             (statements s) (portals s),
   before ++ [Send ErrorResponse]).

(** Modelled from the spec: the rows an Execute sends, at most [maxRows]
    of them when [maxRows] is positive, all of them otherwise. *)
Definition fetch (rows : list Row) (maxRows : Z) : list Row * list Row :=
  if 0 <? maxRows then (take (Z.to_nat maxRows) rows, drop (Z.to_nat maxRows) rows)
  else (rows, []).

(** Modelled from the spec: one message of the sequence (section 4.3).
    Parse compiles and names a statement, Bind creates a portal from a
    statement, Describe answers without executing, Execute streams rows
    from a portal up to a limit, Sync reports the status; a failed
    connection drops everything until a Sync.  That Sync resets the
    connection to Ready(Idle) or Ready(InTransaction) depending on whether
    a transaction was open (section 4.3), and the ReadyForQuery it sends
    carries the failed-transaction status if a transaction was open and
    the idle status otherwise (section 8, Discard-until-Sync). *)
Definition step (s : Session) (m : FrontendMessage) : Session * list action :=
  match status s, m with
  | FailedTransaction, Sync =>
      let st := if transactionOpen s then InTransaction else Idle in
      let reported := if transactionOpen s then FailedTransaction else Idle in
      (mkSession st (transactionOpen s) (statements s) (portals s),
       [Send (ReadyForQuery reported)])
  | FailedTransaction, _ => (s, [])
  | _, Sync => (s, [Send (ReadyForQuery (status s))])
  | _, Flush => (s, [])
  | _, Parse name query =>
      match compile query with
      | Some statement =>
          (mkSession (status s) (transactionOpen s)
                     (<[name := statement]> (statements s)) (portals s),
           [CallCompile query; Send ParseCompleteMsg])
      | None => fails s [CallCompile query]
      end
  | _, Bind portal name parameters =>
      match statements s !! name with
      | Some statement =>
          (mkSession (status s) (transactionOpen s) (statements s)
                     (<[portal := mkPortal statement parameters None]> (portals s)),
           [Send BindComplete])
      | None => fails s []
      end
  | _, Describe true name =>
      match portals s !! name with
      | Some _ => (s, [Send RowDescription])
      | None => fails s []
      end
  | _, Describe false name =>
      match statements s !! name with
      | Some _ => (s, [Send RowDescription])
      | None => fails s []
      end
  | _, Execute name maxRows =>
      match portals s !! name with
      | None => fails s []
      | Some p =>
          let started :=
            match Portal_cursor p with
            | Some cursor => (Some cursor, [])
            | None =>
                (execute (Portal_statement p) (Portal_parameters p),
                 [CallExecute (Portal_statement p) (Portal_parameters p)])
            end in
          match started with
          | (None, calls) => fails s calls
          | (Some (rows, tag), calls) =>
              let '(now, later) := fetch rows maxRows in
              (mkSession (status s) (transactionOpen s) (statements s)
                 (<[name := mkPortal (Portal_statement p) (Portal_parameters p)
                                     (Some (later, tag))]> (portals s)),
               calls ++ (Send ∘ DataRow <$> now)
                     ++ [Send (match later with
                               | [] => CommandComplete tag
                               | _ :: _ => PortalSuspended
                               end)])
          end
      end
  end.

(** Modelled from the spec: the errors of the sequence (sections 4.3 and
    7), told from the message, the tables of the session and the answers of
    the collaborator: a query that does not compile, a Bind or a Describe
    that names a statement that was not prepared, a Describe or an Execute
    that names a portal that was not bound, the first Execute of a portal
    whose execution the collaborator fails. *)
Definition erroneous (s : Session) (m : FrontendMessage) : Prop :=
  match m with
  | Parse _ query => compile query = None
  | Bind _ name _ => statements s !! name = None
  | Describe true name => portals s !! name = None
  | Describe false name => statements s !! name = None
  | Execute name _ =>
      match portals s !! name with
      | None => True
      | Some p =>
          Portal_cursor p = None
          /\ execute (Portal_statement p) (Portal_parameters p) = None
      end
  | Flush | Sync => False
  end.


(** Modelled from the spec: the messages of a connection, processed one
    after the other in the order received (section 5). *)
Fixpoint run (s : Session) (ms : list FrontendMessage) : Session * list action :=
  match ms with
  | [] => (s, [])
  | m :: ms' =>
      let '(s', out) := step s m in
      let '(s'', out') := run s' ms' in
      (s'', out ++ out')
  end.

End Protocol.

End Server.

(* ===================================================================== *)
(** * Properties                                                          *)
(* ===================================================================== *)

(** Turn a boolean comparison on [Z] in hypothesis [H] into the
    corresponding proposition. *)
Ltac zbool H :=
  rewrite ?Z.geb_leb, ?Z.gtb_ltb in H;
  first [ apply Z.leb_le in H | apply Z.leb_gt in H
        | apply Z.ltb_lt in H | apply Z.ltb_ge in H
        | apply Z.eqb_eq in H | apply Z.eqb_neq in H ].

(* --------------------------------------------------------------------- *)
(** ** Go: slices, bytes and big-endian words                                        *)
(* --------------------------------------------------------------------- *)

Module GoFacts.

(** *** Slices *)

Lemma len_nonneg (s : list byte) : 0 <= len s.
Proof. unfold len. lia. Qed.

Lemma slice_to_in_range (s : list byte) (hi : Z) :
  0 <= hi <= len s -> slice_to s hi = Return (take (Z.to_nat hi) s).
Proof.
  intros [Hlo Hhi]. unfold slice_to.
  apply Z.leb_le in Hlo. apply Z.leb_le in Hhi.
  now rewrite Hlo, Hhi.
Qed.

Lemma slice_to_out_of_range (s : list byte) (hi : Z) :
  hi < 0 \/ len s < hi -> slice_to s hi = Panics SliceBoundsOutOfRange.
Proof.
  intros H. unfold slice_to.
  destruct (0 <=? hi) eqn:Hlo; [|reflexivity].
  destruct (hi <=? len s) eqn:Hhi; [|reflexivity].
  apply Z.leb_le in Hlo. apply Z.leb_le in Hhi. lia.
Qed.

Lemma len_take (s : list byte) (k : Z) :
  0 <= k <= len s -> len (take (Z.to_nat k) s) = k.
Proof.
  unfold len. intros H. rewrite length_take. lia.
Qed.

Lemma slice_from_in_range (s : list byte) (lo : Z) :
  0 <= lo <= len s -> slice_from s lo = Return (drop (Z.to_nat lo) s).
Proof.
  intros [H1 H2]. unfold slice_from.
  apply Z.leb_le in H1. apply Z.leb_le in H2. now rewrite H1, H2.
Qed.

(** *** Bytes *)

Lemma byte_to_Z_range (b : byte) : 0 <= byte_to_Z b < 256.
Proof.
  unfold byte_to_Z. pose proof (Byte.to_N_bounded b). lia.
Qed.

Lemma byte_to_of_Z (z : Z) : byte_to_Z (byte_of_Z z) = z mod 256.
Proof.
  unfold byte_to_Z, byte_of_Z.
  pose proof (Z.mod_pos_bound z 256 eq_refl) as Hz.
  destruct (Byte.of_N (Z.to_N (z mod 256))) as [b|] eqn:Hb.
  - apply Byte.to_of_N in Hb. lia.
  - apply Byte.of_N_None_iff in Hb. lia.
Qed.

Lemma byte_of_to_Z (b : byte) : byte_of_Z (byte_to_Z b) = b.
Proof.
  unfold byte_of_Z, byte_to_Z.
  pose proof (Byte.to_N_bounded b) as Hb.
  rewrite Z.mod_small by lia. rewrite N2Z.id.
  now rewrite Byte.of_to_N.
Qed.

Lemma byte_of_Z_eq (z : Z) (b : byte) : z mod 256 = byte_to_Z b -> byte_of_Z z = b.
Proof.
  intros H. rewrite <- (byte_of_to_Z b). unfold byte_of_Z.
  pose proof (byte_to_Z_range b). rewrite H, (Z.mod_small (byte_to_Z b)) by lia.
  reflexivity.
Qed.

(** Or-ing a shifted value above a narrower one adds them. *)
Lemma lor_shiftl_add (a b k : Z) :
  0 <= k -> 0 <= a < 2 ^ k -> Z.lor a (Z.shiftl b k) = a + b * 2 ^ k.
Proof.
  intros Hk Ha. rewrite Z.shiftl_mul_pow2 by lia.
  symmetry. apply Z.add_nocarry_lor.
  apply Z.bits_inj'. intros n Hn.
  rewrite Z.land_spec, Z.bits_0.
  destruct (Z_lt_le_dec n k) as [Hlt|Hge].
  - rewrite Z.mul_pow2_bits_low by lia. apply andb_false_r.
  - destruct (Z.eq_dec a 0) as [->|Hne].
    + now rewrite Z.bits_0.
    + rewrite (Z.bits_above_log2 a n); [reflexivity|lia|].
      apply Z.log2_lt_pow2; [lia|].
      apply Z.lt_le_trans with (2 ^ k); [lia|].
      apply Z.pow_le_mono_r; lia.
Qed.

(** The low digit and the rest of a number written in base 256. *)
Lemma digit_div (a q : Z) : 0 <= a < 256 -> (a + 256 * q) / 256 = q.
Proof.
  intros Ha. symmetry. apply (Z.div_unique _ _ q a); lia.
Qed.

Lemma digit_mod (a q : Z) : 0 <= a < 256 -> (a + 256 * q) mod 256 = a.
Proof.
  intros Ha. symmetry. apply (Z.mod_unique _ _ q a); lia.
Qed.

Lemma Uint32_PutUint32 (v : Z) :
  0 <= v < 2 ^ 32 -> Uint32 (PutUint32 v) = Return v.
Proof.
  intros Hv. unfold Uint32, PutUint32. f_equal.
  rewrite !byte_to_of_Z, !Z.shiftr_div_pow2 by lia.
  rewrite (lor_shiftl_add _ _ 8) by (pose proof (Z.mod_pos_bound v 256); lia).
  rewrite (lor_shiftl_add _ _ 16) by
    (pose proof (Z.mod_pos_bound v 256);
     pose proof (Z.mod_pos_bound (v / 2 ^ 8) 256); lia).
  rewrite (lor_shiftl_add _ _ 24) by
    (pose proof (Z.mod_pos_bound v 256);
     pose proof (Z.mod_pos_bound (v / 2 ^ 8) 256);
     pose proof (Z.mod_pos_bound (v / 2 ^ 16) 256); lia).
  change (2 ^ 8) with 256. change (2 ^ 16) with 65536.
  change (2 ^ 24) with 16777216. change (2 ^ 32) with 4294967296 in Hv.
  replace (v / 65536) with (v / 256 / 256) by (rewrite Z.div_div by lia; reflexivity).
  replace (v / 16777216) with (v / 256 / 256 / 256) by (rewrite !Z.div_div by lia; reflexivity).
  assert (Hq : v / 256 / 256 / 256 < 256).
  { rewrite !Z.div_div by lia. apply Z.div_lt_upper_bound; lia. }
  assert (Hq0 : 0 <= v / 256 / 256 / 256) by (repeat apply Z.div_pos; lia).
  rewrite (Z.mod_small (v / 256 / 256 / 256)) by lia.
  pose proof (Z.div_mod v 256 ltac:(lia)) as E1.
  pose proof (Z.div_mod (v / 256) 256 ltac:(lia)) as E2.
  pose proof (Z.div_mod (v / 256 / 256) 256 ltac:(lia)) as E3.
  lia.
Qed.

Lemma PutUint32_Uint32 (b0 b1 b2 b3 : byte) :
  exists v, Uint32 [b0; b1; b2; b3] = Return v /\ 0 <= v < 2 ^ 32
            /\ PutUint32 v = [b0; b1; b2; b3].
Proof.
  pose proof (byte_to_Z_range b0) as H0. pose proof (byte_to_Z_range b1) as H1.
  pose proof (byte_to_Z_range b2) as H2. pose proof (byte_to_Z_range b3) as H3.
  eexists. split; [reflexivity|].
  rewrite (lor_shiftl_add _ _ 8) by lia.
  rewrite (lor_shiftl_add _ _ 16) by lia.
  rewrite (lor_shiftl_add _ _ 24) by lia.
  change (2 ^ 8) with 256. change (2 ^ 16) with 65536.
  change (2 ^ 24) with 16777216. change (2 ^ 32) with 4294967296.
  split; [lia|].
  unfold PutUint32. rewrite !Z.shiftr_div_pow2 by lia.
  change (2 ^ 8) with 256. change (2 ^ 16) with 65536.
  change (2 ^ 24) with 16777216.
  set (x := byte_to_Z b3 + byte_to_Z b2 * 256 + byte_to_Z b1 * 65536
            + byte_to_Z b0 * 16777216).
  assert (Hx : x = byte_to_Z b3 + 256 * (byte_to_Z b2 + 256 * (byte_to_Z b1
                     + 256 * byte_to_Z b0))) by (unfold x; lia).
  replace (x / 65536) with (x / 256 / 256) by (rewrite Z.div_div by lia; reflexivity).
  replace (x / 16777216) with (x / 256 / 256 / 256) by (rewrite !Z.div_div by lia; reflexivity).
  clearbody x. subst x.
  rewrite !digit_div by lia.
  f_equal; [apply byte_of_Z_eq, Z.mod_small; lia|].
  f_equal; [apply byte_of_Z_eq, digit_mod; lia|].
  f_equal; [apply byte_of_Z_eq, digit_mod; lia|].
  f_equal. apply byte_of_Z_eq, digit_mod; lia.
Qed.

End GoFacts.

(* --------------------------------------------------------------------- *)
(** ** server/functions: left                                            *)
(* --------------------------------------------------------------------- *)

Module FunctionsFacts.
Import Functions GoFacts.

(** C8. [left] is partial.  For a non-null string [s] and a non-null
    integer [n]: when [0 <= n <= len(s)] it returns the prefix of [s] of
    byte length [n]; when [-len(s) <= n < 0] it returns the prefix of byte
    length [len(s) + n]; when [n > len(s)] or [n < -len(s)] the slice
    expression is out of range and the call panics.  Hence the call returns
    exactly when [-len(s) <= n <= len(s)]. *)
Theorem left_string_partial (s : list byte) (n : Z) :
  (0 <= n <= len s ->
     left_string (str s) (int n) = Return (str (take (Z.to_nat n) s))
     /\ len (take (Z.to_nat n) s) = n)
  /\ (- len s <= n < 0 ->
     left_string (str s) (int n) = Return (str (take (Z.to_nat (len s + n)) s))
     /\ len (take (Z.to_nat (len s + n)) s) = len s + n)
  /\ (n > len s \/ n < - len s ->
     left_string (str s) (int n) = Panics SliceBoundsOutOfRange)
  /\ (returns (left_string (str s) (int n)) <-> - len s <= n <= len s).
Proof.
  pose proof (len_nonneg s) as Hs.
  assert (Hpos : 0 <= n <= len s ->
            left_string (str s) (int n) = Return (str (take (Z.to_nat n) s))).
  { intros H. unfold left_string, str, int; simpl.
    destruct (n >=? 0) eqn:Hn; [|zbool Hn; lia].
    now rewrite slice_to_in_range. }
  assert (Hneg : - len s <= n < 0 ->
            left_string (str s) (int n)
            = Return (str (take (Z.to_nat (len s + n)) s))).
  { intros H. unfold left_string, str, int; simpl.
    destruct (n >=? 0) eqn:Hn; [zbool Hn; lia|].
    rewrite slice_to_in_range by lia. reflexivity. }
  assert (Hout : n > len s \/ n < - len s ->
            left_string (str s) (int n) = Panics SliceBoundsOutOfRange).
  { intros H. unfold left_string, str, int; simpl.
    destruct (n >=? 0) eqn:Hn.
    - zbool Hn.
      rewrite slice_to_out_of_range by lia. reflexivity.
    - zbool Hn.
      rewrite slice_to_out_of_range by lia. reflexivity. }
  split; [|split; [|split; [exact Hout|split]]].
  - intros H. split; [now apply Hpos | now apply len_take].
  - intros H. split; [now apply Hneg | apply len_take; lia].
  - intros [r Hr].
    destruct (Z_le_gt_dec n (len s)) as [Hle|Hgt];
      [destruct (Z_lt_le_dec n (- len s)) as [Hlt|Hge]; [|lia]|];
      rewrite Hout in Hr by lia; discriminate.
  - intros H. destruct (Z_lt_le_dec n 0) as [Hlt|Hge].
    + exists (str (take (Z.to_nat (len s + n)) s)). apply Hneg. lia.
    + exists (str (take (Z.to_nat n) s)). apply Hpos. lia.
Qed.

Lemma left_string_partial_witness :
  let hello := String.list_byte_of_string "hello" in
  left_string (str hello) (int 2) = Return (str (take 2 hello))
  /\ left_string (str hello) (int (-2)) = Return (str (take 3 hello))
  /\ left_string (str hello) (int 6) = Panics SliceBoundsOutOfRange
  /\ left_string (str hello) (int (-6)) = Panics SliceBoundsOutOfRange.
Proof.
  intros hello.
  destruct (left_string_partial hello 2) as (Hp & _).
  destruct (left_string_partial hello (-2)) as (_ & Hn & _).
  destruct (left_string_partial hello 6) as (_ & _ & Hhi & _).
  destruct (left_string_partial hello (-6)) as (_ & _ & Hlo & _).
  split; [apply Hp; vm_compute; split; discriminate|].
  split; [apply Hn; vm_compute; split; [discriminate|reflexivity]|].
  split; [apply Hhi; left; reflexivity|].
  apply Hlo; right; reflexivity.
Defined.

(** A null argument gives a null result, whatever the other argument is. *)
Lemma left_string_null (string : StringType) (n : IntegerType) :
  StringType_IsNull string = true \/ IntegerType_IsNull n = true ->
  left_string string n = Return (mkStringType [] true).
Proof.
  unfold left_string. intros [-> | ->]; [reflexivity|].
  now rewrite orb_true_r.
Qed.

End FunctionsFacts.


(* --------------------------------------------------------------------- *)
(** ** server/types: xid                                                  *)
(* --------------------------------------------------------------------- *)

Module XidFacts.
Import Types GoFacts.

Section Xid.

Variable convertUint32 : any -> converted.

(** What [SerializeValue] needs of [Convert]: a value that already is a
    [uint32] converts to itself, without error. *)
Hypothesis convertUint32_uint32 :
  forall v, 0 <= v < 2 ^ 32 -> convertUint32 (AUint32 v) = (AUint32 v, InRange, None).

Lemma uint32_offset_range (v : Z) : 0 <= uint32 (uint32 v + 2 ^ 31) < 2 ^ 32.
Proof. unfold uint32. apply Z.mod_pos_bound. lia. Qed.

Lemma uint32_offset_inverse (v : Z) :
  0 <= v < 2 ^ 32 -> uint32 (uint32 (uint32 (uint32 v + 2 ^ 31) - 2 ^ 31)) = v.
Proof.
  unfold uint32. change (2 ^ 32) with 4294967296. change (2 ^ 31) with 2147483648.
  intros Hv. rewrite (Z.mod_small v) by lia.
  destruct (Z_lt_le_dec v 2147483648) as [Hlo|Hhi].
  - rewrite (Z.mod_small (v + 2147483648)) by lia.
    replace (v + 2147483648 - 2147483648) with v by lia.
    rewrite Z.mod_mod by lia. apply Z.mod_small; lia.
  - replace ((v + 2147483648) mod 4294967296) with (v - 2147483648)
      by (apply (Z.mod_unique _ _ 1); lia).
    replace ((v - 2147483648 - 2147483648) mod 4294967296) with v
      by (apply (Z.mod_unique _ _ (-1)); lia).
    apply Z.mod_small; lia.
Qed.

Lemma SerializeValue_uint32 (v : Z) :
  0 <= v < 2 ^ 32 ->
  XidType_SerializeValue convertUint32 (AUint32 v)
  = Return (Some (PutUint32 ((v + 2 ^ 31) mod 2 ^ 32)), None).
Proof.
  intros Hv. unfold XidType_SerializeValue, XidType_Convert.
  rewrite convertUint32_uint32 by exact Hv.
  unfold uint32 at 2. now rewrite (Z.mod_small v) by lia.
Qed.

Lemma DeserializeValue_PutUint32 (x : Z) :
  0 <= x < 2 ^ 32 ->
  XidType_DeserializeValue (PutUint32 x)
  = Return (AUint32 ((x - 2 ^ 31) mod 2 ^ 32), None).
Proof.
  intros Hx. unfold XidType_DeserializeValue.
  change (len (PutUint32 x) =? 0) with false. cbv iota.
  rewrite Uint32_PutUint32 by exact Hx. cbn [mbind outcome_bind].
  unfold uint32. now rewrite Z.mod_mod by lia.
Qed.

(** C9. Serialising an xid and deserialising the result gives the xid
    back: for every [uint32] value [v], [SerializeValue] returns the four
    big-endian bytes of [v + 2^31 (mod 2^32)], [DeserializeValue] of these
    bytes subtracts [2^31 (mod 2^32)] and returns [v]; [SerializeValue] of
    [nil] returns [nil], and [DeserializeValue] of a [nil] or empty slice
    returns [nil]. *)
Theorem xid_serialize_roundtrip (v : Z) :
  0 <= v < 2 ^ 32 ->
  XidType_SerializeValue convertUint32 (AUint32 v)
    = Return (Some (PutUint32 ((v + 2 ^ 31) mod 2 ^ 32)), None)
  /\ XidType_DeserializeValue (PutUint32 ((v + 2 ^ 31) mod 2 ^ 32))
    = Return (AUint32 v, None)
  /\ (r ← XidType_SerializeValue convertUint32 (AUint32 v);
      XidType_DeserializeValue (slice_of r.1)) = Return (AUint32 v, None)
  /\ XidType_SerializeValue convertUint32 ANil = Return (None, None)
  /\ XidType_DeserializeValue (slice_of None) = Return (ANil, None)
  /\ (r ← XidType_SerializeValue convertUint32 ANil;
      XidType_DeserializeValue (slice_of r.1)) = Return (ANil, None).
Proof.
  intros Hv.
  assert (Hd : XidType_DeserializeValue (PutUint32 ((v + 2 ^ 31) mod 2 ^ 32))
               = Return (AUint32 v, None)).
  { rewrite DeserializeValue_PutUint32 by (apply Z.mod_pos_bound; lia).
    pose proof (uint32_offset_inverse v Hv) as Hi. unfold uint32 in Hi.
    rewrite (Z.mod_small v) in Hi by lia.
    rewrite Z.mod_mod in Hi by lia. now rewrite Hi. }
  split; [now apply SerializeValue_uint32|].
  split; [exact Hd|].
  split; [rewrite SerializeValue_uint32 by exact Hv; exact Hd|].
  repeat split.
Qed.

(** The other direction: every four-byte value is the serialisation of the
    xid it deserialises to. *)
Lemma xid_deserialize_roundtrip (b0 b1 b2 b3 : byte) :
  exists v, XidType_DeserializeValue [b0; b1; b2; b3] = Return (AUint32 v, None)
            /\ XidType_SerializeValue convertUint32 (AUint32 v)
               = Return (Some [b0; b1; b2; b3], None).
Proof.
  destruct (PutUint32_Uint32 b0 b1 b2 b3) as (x & Hx & Hr & Hp).
  exists ((x - 2 ^ 31) mod 2 ^ 32). split.
  - rewrite <- Hp. now apply DeserializeValue_PutUint32.
  - rewrite SerializeValue_uint32 by (apply Z.mod_pos_bound; lia).
    assert (E : ((x - 2 ^ 31) mod 2 ^ 32 + 2 ^ 31) mod 2 ^ 32 = x).
    { change (2 ^ 32) with 4294967296 in *. change (2 ^ 31) with 2147483648.
      destruct (Z_lt_le_dec x 2147483648) as [Hlo|Hhi].
      - replace ((x - 2147483648) mod 4294967296) with (x + 2147483648)
          by (apply (Z.mod_unique _ _ (-1)); lia).
        symmetry; apply (Z.mod_unique _ _ 1); lia.
      - rewrite (Z.mod_small (x - 2147483648)) by lia.
        replace (x - 2147483648 + 2147483648) with x by lia.
        apply Z.mod_small; lia. }
    now rewrite E, Hp.
Qed.

(** A shorter, non-empty slice makes [DeserializeValue] panic. *)
Lemma xid_deserialize_short (val : list byte) :
  (0 < length val < 4)%nat -> XidType_DeserializeValue val = Panics IndexOutOfRange.
Proof.
  intros H. destruct val as [|b0 [|b1 [|b2 [|b3 ?]]]]; simpl in H; try lia;
    reflexivity.
Qed.

End Xid.

Example SerializeValue_zero :
  XidType_SerializeValue convertUint32_strict (AUint32 0)
  = Return (Some [x80; x00; x00; x00], None).
Proof. reflexivity. Qed.

Example DeserializeValue_max :
  XidType_DeserializeValue [x7f; xff; xff; xff] = Return (AUint32 (2 ^ 32 - 1), None).
Proof. reflexivity. Qed.

Lemma xid_serialize_roundtrip_witness :
  XidType_SerializeValue convertUint32_strict (AUint32 7)
    = Return (Some (PutUint32 ((7 + 2 ^ 31) mod 2 ^ 32)), None)
  /\ XidType_DeserializeValue (PutUint32 ((7 + 2 ^ 31) mod 2 ^ 32))
    = Return (AUint32 7, None).
Proof.
  assert (H : forall v, 0 <= v < 2 ^ 32 ->
                convertUint32_strict (AUint32 v) = (AUint32 v, InRange, None))
    by reflexivity.
  destruct (xid_serialize_roundtrip convertUint32_strict H 7 ltac:(lia))
    as (Hs & Hd & _).
  exact (conj Hs Hd).
Defined.

End XidFacts.

(* --------------------------------------------------------------------- *)
(** ** unicode/utf8: widths and rune counts                               *)
(* --------------------------------------------------------------------- *)

Module Utf8Facts.
Import GoFacts.

Lemma first_size (p0 sz lo hi : Z) :
  first p0 = Some (sz, (lo, hi)) -> sz = 2 \/ sz = 3 \/ sz = 4.
Proof.
  unfold first.
  repeat match goal with
         | |- context [if ?c then _ else _] => destruct c
         end; intros H; inversion H; auto.
Qed.

(** Only bytes from 0xC2 on start a multi-byte sequence. *)
Lemma first_lead (p0 : Z) (x : Z * (Z * Z)) : first p0 = Some x -> 0xC2 <= p0.
Proof.
  unfold first.
  repeat match goal with
         | |- context [if ?c then _ else _] =>
             let Hc := fresh "Hc" in destruct c eqn:Hc
         end; intros H; try discriminate;
    repeat match goal with
           | H : (_ && _) = true |- _ => apply andb_prop in H as [? ?]
           end;
    repeat match goal with
           | H : (_ <=? _) = true |- _ => zbool H
           | H : (_ =? _) = true |- _ => zbool H
           end; lia.
Qed.

(** Case analysis on the tests [DecodeRune] makes. *)
Ltac decode_cases :=
  repeat match goal with
         | |- context [first ?x] =>
             let Hf := fresh "Hf" in
             destruct (first x) as [[? [? ?]]|] eqn:Hf;
             [pose proof (first_lead _ _ Hf); apply first_size in Hf|]
         | |- context [if ?c then _ else _] =>
             let Hc := fresh "Hc" in destruct c eqn:Hc
         end.

Ltac zbools :=
  repeat match goal with
         | H : (_ <? _) = _ |- _ => zbool H
         | H : (_ <=? _) = _ |- _ => zbool H
         | H : (_ =? _) = _ |- _ => zbool H
         end.

Lemma DecodeRune_nil : DecodeRune [] = (RuneError, 0).
Proof. reflexivity. Qed.

(** A non-empty input decodes to a rune of one to four bytes, all of them
    taken from the input. *)
Lemma DecodeRune_size (p : list byte) :
  p <> [] -> 1 <= (DecodeRune p).2 <= 4 /\ (DecodeRune p).2 <= len p.
Proof.
  intros Hp. unfold len.
  destruct p as [|c0 [|c1 [|c2 [|c3 rest]]]]; [congruence| | | |];
    unfold DecodeRune, len; decode_cases; cbn [snd length]; lia.
Qed.

(** [RuneCount] advances by the width [DecodeRune] reports. *)
Lemma RuneCount_advance_width (p : list byte) :
  RuneCount_advance p = (DecodeRune p).2.
Proof.
  destruct p as [|c0 [|c1 [|c2 [|c3 rest]]]]; [reflexivity| | | |];
    unfold RuneCount_advance, DecodeRune, len; cbn [length];
    decode_cases; cbn [snd]; zbools; try reflexivity; lia.
Qed.

Lemma width_bounds (p : list byte) :
  p <> [] -> (1 <= width p <= length p)%nat.
Proof.
  intros Hp. destruct (DecodeRune_size p Hp) as [H1 H2].
  unfold width, len in *. lia.
Qed.

(** Cutting the input anywhere at or after the end of its first rune does
    not change that rune's width: a sequence cut short decodes with width 1
    and is only cut short when the whole input gave width 1 already. *)
Lemma width_take (p : list byte) (k : nat) :
  (width p <= k)%nat -> (1 <= k)%nat -> width (take k p) = width p.
Proof.
  unfold width.
  destruct p as [|c0 [|c1 [|c2 [|c3 rest]]]];
    destruct k as [|[|[|[|k]]]]; try (intros; lia); try reflexivity;
    cbn [take]; unfold DecodeRune, len; cbn [length];
    decode_cases; cbn [snd]; zbools; try reflexivity; try lia;
    intros Hw Hk; exfalso; rewrite ?length_take in *; lia.
Qed.

(** *** Rune counts *)

Lemma RuneCount_from_acc (fuel : nat) (p : list byte) (n : Z) :
  RuneCount_from fuel p n = n + RuneCount_from fuel p 0.
Proof.
  revert p n. induction fuel as [|fuel IH]; intros p n; cbn [RuneCount_from].
  - lia.
  - destruct p as [|c rest]; [lia|].
    rewrite (IH _ (n + 1)), (IH _ (0 + 1)). lia.
Qed.

Lemma RuneCount_from_fuel (f1 f2 : nat) (p : list byte) (n : Z) :
  (length p <= f1)%nat -> (length p <= f2)%nat ->
  RuneCount_from f1 p n = RuneCount_from f2 p n.
Proof.
  revert f2 p n. induction f1 as [|f1 IH]; intros f2 p n H1 H2.
  - destruct p; [|simpl in H1; lia]. destruct f2; reflexivity.
  - destruct p as [|c rest]; [destruct f2; reflexivity|].
    destruct f2 as [|f2]; [simpl in H2; lia|].
    cbn [RuneCount_from]. rewrite RuneCount_advance_width. apply IH.
    + pose proof (width_bounds (c :: rest) ltac:(congruence)) as Hw.
      unfold width in Hw. rewrite length_drop. simpl in *. lia.
    + pose proof (width_bounds (c :: rest) ltac:(congruence)) as Hw.
      unfold width in Hw. rewrite length_drop. simpl in *. lia.
Qed.

Lemma RuneCount_nil : RuneCount [] = 0.
Proof. reflexivity. Qed.

(** The count of a non-empty input: one rune, and the runes after it. *)
Lemma RuneCount_step (p : list byte) :
  p <> [] -> RuneCount p = 1 + RuneCount (drop (width p) p).
Proof.
  intros Hp. pose proof (width_bounds p Hp) as Hw.
  destruct p as [|c rest]; [congruence|].
  unfold RuneCount at 1. cbn [length RuneCount_from].
  rewrite RuneCount_advance_width, RuneCount_from_acc. unfold RuneCount. fold (width (c :: rest)).
  f_equal. apply RuneCount_from_fuel; rewrite ?length_drop; simpl in *; lia.
Qed.

(** The byte length is at least the rune count. *)
Lemma RuneCount_bounds (p : list byte) : 0 <= RuneCount p <= len p.
Proof.
  remember (length p) as m eqn:Hm. revert p Hm.
  induction m as [m IH] using lt_wf_ind. intros p Hm.
  destruct p as [|c rest].
  - rewrite RuneCount_nil. unfold len. simpl. lia.
  - pose proof (width_bounds (c :: rest) ltac:(congruence)) as Hw.
    rewrite RuneCount_step by congruence.
    assert (Hlt : (length (drop (width (c :: rest)) (c :: rest)) < m)%nat)
      by (rewrite length_drop; lia).
    specialize (IH _ Hlt _ eq_refl).
    unfold len in *. rewrite length_drop in IH. lia.
Qed.

Lemma RuneCount_pos (p : list byte) : p <> [] -> 1 <= RuneCount p.
Proof.
  intros Hp. rewrite RuneCount_step by exact Hp.
  pose proof (RuneCount_bounds (drop (width p) p)). lia.
Qed.

(** *** On concrete inputs *)

Example DecodeRune_two_bytes : DecodeRune [xc3; xa9; x74] = (0xE9, 2).
Proof. reflexivity. Qed.

Example DecodeRune_three_bytes : DecodeRune [xe2; x82; xac] = (0x20AC, 3).
Proof. reflexivity. Qed.

Example DecodeRune_four_bytes : DecodeRune [xf0; x9f; x98; x80] = (0x1F600, 4).
Proof. reflexivity. Qed.

Example DecodeRune_surrogate : DecodeRune [xed; xa0; x80] = (RuneError, 1).
Proof. reflexivity. Qed.

Example DecodeRune_overlong : DecodeRune [xc0; x80] = (RuneError, 1).
Proof. reflexivity. Qed.

Example DecodeRune_short : DecodeRune [xe2; x82] = (RuneError, 1).
Proof. reflexivity. Qed.

Example RuneCount_mixed :
  RuneCount [x68; xc3; xa9; x6c; x6c; x6f; xe2; x82; xff] = 8.
Proof. reflexivity. Qed.

End Utf8Facts.

(* --------------------------------------------------------------------- *)
(** ** server/types: varchar                                              *)
(* --------------------------------------------------------------------- *)

Module VarCharFacts.
Import Types GoFacts Utf8Facts.

Lemma first_runes_nil (n : nat) : first_runes n [] = [].
Proof. destruct n; reflexivity. Qed.

Lemma first_runes_step (n : nat) (p : list byte) :
  p <> [] ->
  first_runes (S n) p = take (width p) p ++ first_runes n (drop (width p) p).
Proof. destruct p; [congruence|reflexivity]. Qed.

(** Asking for at least as many runes as there are gives the whole input. *)
Lemma first_runes_all (n : nat) (p : list byte) :
  RuneCount p <= Z.of_nat n -> first_runes n p = p.
Proof.
  revert p. induction n as [|n IH]; intros p Hn.
  - destruct p as [|c rest]; [reflexivity|].
    pose proof (RuneCount_pos (c :: rest) ltac:(congruence)). lia.
  - destruct p as [|c rest]; [reflexivity|].
    rewrite first_runes_step by congruence.
    rewrite IH; [apply take_drop|].
    rewrite RuneCount_step in Hn by congruence. lia.
Qed.

(** The truncation loop, run [n] times on an input of at least [n] runes,
    never slices out of range; it stops right after the first [n] runes. *)
Lemma truncate_loop_spec (n : nat) (val : list byte) :
  Z.of_nat n <= RuneCount val ->
  exists k : nat,
    (k <= length val)%nat
    /\ truncate_loop n val = Return (drop k val)
    /\ take k val = first_runes n val
    /\ RuneCount (take k val) = Z.of_nat n.
Proof.
  revert val. induction n as [|n IH]; intros val Hn.
  - exists 0%nat. split; [lia|]. now rewrite take_0.
  - assert (Hval : val <> []).
    { intros ->. rewrite RuneCount_nil in Hn. lia. }
    pose proof (width_bounds val Hval) as Hw.
    pose proof (DecodeRune_size val Hval) as [Hs1 Hs2].
    rewrite RuneCount_step in Hn by exact Hval.
    destruct (IH (drop (width val) val) ltac:(lia)) as (k & Hk & Hloop & Htake & Hcount).
    rewrite length_drop in Hk.
    exists (width val + k)%nat. split; [lia|]. split; [|split].
    + cbn [truncate_loop].
      destruct (DecodeRune val) as [r size] eqn:Hd. cbn [snd] in *.
      rewrite slice_from_in_range by lia. cbn [mbind outcome_bind].
      fold (width val) in *. unfold width at 1 in Hloop. rewrite Hd in Hloop.
      cbn [snd] in Hloop. rewrite Hloop.
      rewrite drop_drop. unfold width. now rewrite Hd.
    + rewrite first_runes_step by exact Hval.
      rewrite <- Htake. symmetry. apply take_take_drop.
    + assert (Hne : take (width val + k) val <> []).
      { destruct val; [congruence|].
        destruct (width (b :: val) + k)%nat eqn:E; [lia|discriminate]. }
      rewrite RuneCount_step by exact Hne.
      rewrite width_take by lia.
      rewrite <- take_drop_commute, Hcount. lia.
Qed.

Section Convert.

Variable b : VarCharType.
Hypothesis Length_uint32 : 0 <= Length b < 2 ^ 32.

(** For an input shorter than 2^32 bytes, [Convert] returns the first
    [Length] runes of the input, in range and without error. *)
Lemma Convert_text_first_runes (val : list byte) :
  len val < 2 ^ 32 ->
  VarCharType_Convert_text b val
  = Return (AString (first_runes (Z.to_nat (Length b)) val), InRange, None).
Proof.
  intros Hlen. unfold VarCharType_Convert_text.
  pose proof (RuneCount_bounds val) as Hrc.
  pose proof (len_nonneg val) as Hl0.
  unfold uint32. rewrite !Z.mod_small by lia.
  destruct (len val >? Length b) eqn:Hc1;
    [destruct (RuneCount val >? Length b) eqn:Hc2|].
  - zbool Hc2.
    destruct (truncate_loop_spec (Z.to_nat (Length b)) val ltac:(lia))
      as (k & Hk & Hloop & Htake & _).
    rewrite Hloop. cbn [mbind outcome_bind].
    rewrite slice_to_in_range
      by (unfold len; rewrite length_drop; lia).
    cbn [mbind outcome_bind]. rewrite <- Htake.
    replace (Z.to_nat (len val - len (drop k val))) with k
      by (unfold len; rewrite length_drop; lia).
    reflexivity.
  - zbool Hc2. rewrite first_runes_all by lia. reflexivity.
  - zbool Hc1. rewrite first_runes_all by lia. reflexivity.
Qed.

Lemma RuneCount_first_runes (val : list byte) :
  RuneCount (first_runes (Z.to_nat (Length b)) val)
  = Z.min (Length b) (RuneCount val).
Proof.
  destruct (Z_le_gt_dec (RuneCount val) (Length b)) as [Hle|Hgt].
  - rewrite first_runes_all by lia. lia.
  - destruct (truncate_loop_spec (Z.to_nat (Length b)) val ltac:(lia))
      as (k & _ & _ & Htake & Hcount).
    rewrite <- Htake, Hcount. lia.
Qed.

(** [Convert] on inputs shorter than 2^32 bytes: no error, in range, the
    input cut down to its first [Length] runes, so at most [Length] runes
    in the result. *)
Theorem Convert_truncates (val : list byte) :
  len val < 2 ^ 32 ->
  exists r,
    VarCharType_Convert b (AString val) = Return (AString r, InRange, None)
    /\ VarCharType_Convert b (ABytes val) = Return (AString r, InRange, None)
    /\ r = first_runes (Z.to_nat (Length b)) val
    /\ RuneCount r <= Length b
    /\ (RuneCount val <= Length b -> r = val)
    /\ (Length b < RuneCount val -> RuneCount r = Length b).
Proof.
  intros Hlen. exists (first_runes (Z.to_nat (Length b)) val).
  cbn [VarCharType_Convert]. rewrite Convert_text_first_runes by exact Hlen.
  rewrite RuneCount_first_runes.
  repeat split; try lia.
  intros H. apply first_runes_all. lia.
Qed.

End Convert.

Lemma Convert_truncates_witness :
  exists r,
    VarCharType_Convert (mkVarCharType 2) (AString [xc3; xa9; x74; xc3; xa9])
      = Return (AString r, InRange, None)
    /\ r = [xc3; xa9; x74]
    /\ RuneCount r <= 2.
Proof.
  destruct (Convert_truncates (mkVarCharType 2) ltac:(cbn; lia)
              [xc3; xa9; x74; xc3; xa9] ltac:(vm_compute; reflexivity))
    as (r & Hs & _ & Hr & Hc & _).
  exists r. split; [exact Hs|]. split; [exact Hr|exact Hc].
Defined.

Example Convert_cuts_runes :
  VarCharType_Convert (mkVarCharType 3) (AString [x68; xc3; xa9; x6c; x6c; x6f])
  = Return (AString [x68; xc3; xa9; x6c], InRange, None).
Proof. reflexivity. Qed.

Example Convert_keeps_short :
  VarCharType_Convert (mkVarCharType 5) (ABytes [x68; xc3; xa9; x6c; x6c; x6f])
  = Return (AString [x68; xc3; xa9; x6c; x6c; x6f], InRange, None).
Proof. reflexivity. Qed.

(** Values of any other dynamic type are rejected, [nil] is kept. *)
Lemma Convert_other (b : VarCharType) :
  VarCharType_Convert b ANil = Return (ANil, InRange, None)
  /\ (forall v, VarCharType_Convert b (AInt32 v)
                = Return (ANil, OutOfRange, Some ErrInvalidType)).
Proof. split; reflexivity. Qed.

(** *** Inputs of 2^32 bytes and more *)

Lemma width_ascii (c : byte) (rest : list byte) :
  byte_to_Z c < 0x80 -> width (c :: rest) = 1%nat.
Proof.
  intros Hc. unfold width, DecodeRune.
  assert (Hf : first (byte_to_Z c) = None).
  { unfold first.
    repeat match goal with
           | |- context [if ?t then _ else _] =>
               let Ht := fresh "Ht" in destruct t eqn:Ht
           end; try reflexivity; exfalso;
      repeat match goal with
             | H : (_ && _) = true |- _ => apply andb_prop in H as [? ?]
             end; zbools;
      repeat match goal with
             | H : (_ =? _) = true |- _ => zbool H
             end; lia. }
  now rewrite Hf.
Qed.

Lemma RuneCount_replicate_ascii (n : nat) (c : byte) :
  byte_to_Z c < 0x80 -> RuneCount (replicate n c) = Z.of_nat n.
Proof.
  intros Hc. induction n as [|n IH]; [reflexivity|].
  change (replicate (S n) c) with (c :: replicate n c).
  rewrite RuneCount_step by congruence.
  rewrite width_ascii by exact Hc.
  change (drop 1 (c :: replicate n c)) with (replicate n c).
  rewrite IH. lia.
Qed.

(** C10, on the code.  [Convert] compares [uint32(len(val))] with [Length],
    so an input of exactly 2^32 bytes looks empty to the length check: it
    is returned as it is, all 2^32 runes of it, by a [VarCharType] of length
    10. *)
Theorem Convert_length_check_wraps :
  VarCharType_Convert (mkVarCharType 10)
                      (AString (replicate (Z.to_nat (2 ^ 32)) x61))
  = Return (AString (replicate (Z.to_nat (2 ^ 32)) x61), InRange, None)
  /\ RuneCount (replicate (Z.to_nat (2 ^ 32)) x61) = 2 ^ 32
  /\ ~ RuneCount (replicate (Z.to_nat (2 ^ 32)) x61) <= Length (mkVarCharType 10).
Proof.
  pose proof (Z2Nat.id (2 ^ 32) ltac:(lia)) as Hn.
  remember (Z.to_nat (2 ^ 32)) as n eqn:En. clear En.
  assert (Hrc : RuneCount (replicate n x61) = 2 ^ 32).
  { rewrite RuneCount_replicate_ascii; [exact Hn|reflexivity]. }
  split; [|split; [exact Hrc|rewrite Hrc; cbn [Length]; lia]].
  cbn [VarCharType_Convert]. unfold VarCharType_Convert_text, len.
  rewrite length_replicate, Hn. reflexivity.
Qed.

End VarCharFacts.

(* --------------------------------------------------------------------- *)
(** ** postgres/messages: schemas, Encode and Decode                      *)
(* --------------------------------------------------------------------- *)

Module MessagesFacts.
Import Connection Messages GoFacts.

(** *** The framing of the schemas *)

(** The framing leaves room for one header tag and one length field only. *)
Lemma tagged_framing_counts (m : MessageFormat) :
  tagged_framing m = true ->
  count_flag Header m = 1%nat /\ count_flag MessageLengthInclusive m = 1%nat.
Proof.
  unfold tagged_framing, count_flag.
  destruct (MessageFormat_Fields m) as [|h [|l payload]]; try discriminate.
  rewrite !andb_true_iff, !bool_decide_eq_true, forallb_forall.
  intros ((((_ & Hh) & _) & Hl) & Hp).
  assert (Hnone : forall fl, fl <> NoFlags ->
            filter (fun f => Field_Flags f = fl) payload = []).
  { intros fl Hfl. induction payload as [|f payload IH]; [reflexivity|].
    rewrite filter_cons.
    assert (Hf : Field_Flags f = NoFlags).
    { apply (bool_decide_eq_true_1 _), Hp. now left. }
    destruct (decide (Field_Flags f = fl)) as [E|_]; [congruence|].
    apply IH. intros x Hx. apply Hp. now right. }
  rewrite !filter_cons, Hh, Hl.
  destruct (decide (Header = Header)) as [_|N]; [|congruence].
  destruct (decide (MessageLengthInclusive = Header)) as [E|_]; [discriminate|].
  destruct (decide (Header = MessageLengthInclusive)) as [E|_]; [discriminate|].
  destruct (decide (MessageLengthInclusive = MessageLengthInclusive))
    as [_|N]; [|congruence].
  rewrite !Hnone by discriminate. split; reflexivity.
Qed.

(** C4. Every tagged message schema of the catalog is framed: a one-byte
    field flagged as the header tag comes first (100, the letter d, for
    CopyData; 49, the digit 1, for ParseComplete), a four-byte field flagged
    as the inclusive message length comes second, the payload fields
    follow and carry no flag; no schema has two header tags or two
    inclusive lengths. *)
Theorem catalog_framing :
  Forall (fun m =>
            (exists h l payload,
                MessageFormat_Fields m = h :: l :: payload
                /\ Field_Type h = Byte1 /\ Field_Flags h = Header
                /\ Field_Type l = Int32 /\ Field_Flags l = MessageLengthInclusive
                /\ Forall (fun f => Field_Flags f = NoFlags) payload)
            /\ count_flag Header m = 1%nat
            /\ count_flag MessageLengthInclusive m = 1%nat)
         catalog
  /\ header_tag (MessageFormat_Fields copyDataDefault) = Some x64
  /\ header_tag (MessageFormat_Fields parseCompleteDefault) = Some x31.
Proof.
  split; [|split; reflexivity].
  unfold catalog.
  constructor; [|constructor; [|constructor]].
  - split; [|apply tagged_framing_counts; reflexivity].
    eexists _, _, _. split; [reflexivity|].
    repeat split. repeat constructor.
  - split; [|apply tagged_framing_counts; reflexivity].
    eexists _, _, _. split; [reflexivity|].
    repeat split. constructor.
Qed.

(** *** MatchesStructure *)

Lemma MatchesStructure_shape (s other : MessageFormat) :
  MatchesStructure s other = None <-> shape s = shape other.
Proof.
  unfold MatchesStructure. destruct (decide (shape s = shape other)).
  - tauto.
  - split; [discriminate|tauto].
Qed.

Lemma MatchesStructure_mismatch (s other : MessageFormat) :
  shape s <> shape other -> MatchesStructure s other = Some SchemaMismatch.
Proof.
  intros H. unfold MatchesStructure.
  destruct (decide (shape s = shape other)); [tauto|reflexivity].
Qed.

(** A write changes no name, type or flag. *)
Lemma write_field_shape (fs fs' : FieldGroup) (name : string) (v : any) :
  write_field fs name v = Some fs' ->
  (fun f => (Field_Name f, Field_Type f, Field_Flags f)) <$> fs'
  = (fun f => (Field_Name f, Field_Type f, Field_Flags f)) <$> fs.
Proof.
  revert fs'. induction fs as [|f fs IH]; intros fs' H; [discriminate|].
  cbn [write_field] in H.
  destruct (decide (Field_Name f = name)).
  - inversion H; subst. reflexivity.
  - destruct (write_field fs name v) as [fs''|] eqn:E; [|discriminate].
    cbn in H. inversion H; subst. cbn. f_equal. now apply IH.
Qed.

(** C5. A [Decode] method handed a message format whose sequence of
    field names, types and flags differs from its own default schema fails
    with SchemaMismatch and returns no message; it only returns a message
    when the sequences are the same. *)
Theorem decode_schema_mismatch (s : MessageFormat) :
  (shape s <> shape CopyData_DefaultMessage ->
     CopyData_Decode s = Return (Err SchemaMismatch))
  /\ (forall m, CopyData_Decode s = Return (Ok m) ->
       shape s = shape CopyData_DefaultMessage)
  /\ (shape s <> shape ParseComplete_defaultMessage ->
     ParseComplete_decode s = Return (Err SchemaMismatch))
  /\ (forall m, ParseComplete_decode s = Return (Ok m) ->
       shape s = shape ParseComplete_defaultMessage).
Proof.
  split; [|split; [|split]].
  - intros H. unfold CopyData_Decode.
    now rewrite MatchesStructure_mismatch.
  - intros m H. unfold CopyData_Decode in H.
    destruct (MatchesStructure s CopyData_DefaultMessage) eqn:E.
    + inversion H.
    + now apply MatchesStructure_shape.
  - intros H. unfold ParseComplete_decode.
    now rewrite MatchesStructure_mismatch.
  - intros m H. unfold ParseComplete_decode in H.
    destruct (MatchesStructure s ParseComplete_defaultMessage) eqn:E.
    + inversion H.
    + now apply MatchesStructure_shape.
Qed.

Lemma decode_schema_mismatch_witness :
  CopyData_Decode parseCompleteDefault = Return (Err SchemaMismatch)
  /\ ParseComplete_decode copyDataDefault = Return (Err SchemaMismatch).
Proof.
  destruct (decode_schema_mismatch parseCompleteDefault) as (Hc & _).
  destruct (decode_schema_mismatch copyDataDefault) as (_ & _ & Hp & _).
  split; [apply Hc|apply Hp]; vm_compute; discriminate.
Defined.

(** With the shape of its default schema, [ParseComplete.decode] returns
    the message; [CopyData.Decode] does when the Data field holds bytes, and
    panics in the type assertion when it holds anything else. *)
Lemma ParseComplete_decode_matching (s : MessageFormat) :
  shape s = shape ParseComplete_defaultMessage ->
  ParseComplete_decode s = Return (Ok mkParseComplete).
Proof.
  intros H. unfold ParseComplete_decode.
  apply MatchesStructure_shape in H. now rewrite H.
Qed.

Lemma CopyData_Decode_matching (s : MessageFormat) :
  shape s = shape CopyData_DefaultMessage ->
  (exists data, MustGet s "Data" = Return (ABytes data)
                /\ CopyData_Decode s = Return (Ok (mkCopyData data)))
  \/ CopyData_Decode s = Panics InterfaceConversion.
Proof.
  intros H. unfold CopyData_Decode.
  pose proof (proj2 (MatchesStructure_shape _ _) H) as Hm. rewrite Hm.
  destruct s as [name fs]. unfold shape in H. cbn in H.
  destruct fs as [|h [|l [|d [|? ?]]]]; try discriminate.
  inversion H as [[Hh1 Hh2 Hh3 Hl1 Hl2 Hl3 Hd1 Hd2 Hd3]].
  unfold MustGet. cbn [MessageFormat_Fields read_field].
  rewrite Hh1, Hl1, Hd1.
  destruct (decide ("Header" = "Data")) as [E|_]; [discriminate|].
  destruct (decide ("MessageLength" = "Data")) as [E|_]; [discriminate|].
  destruct (decide ("Data" = "Data")) as [_|N]; [|congruence].
  cbn. destruct (Field_Data d); eauto.
Qed.

(** *** Encode, then Decode *)

Lemma CopyData_Encode_format (m : CopyData) :
  CopyData_Encode m = Return (Ok (copyDataFormat 0 (CopyData_Data m))).
Proof. reflexivity. Qed.

Lemma CopyData_Decode_format (length : Z) (data : list byte) :
  CopyData_Decode (copyDataFormat length data) = Return (Ok (mkCopyData data)).
Proof. reflexivity. Qed.

Lemma int32_small (v : Z) : 0 <= v <= 2 ^ 31 - 1 -> int32 v = v.
Proof.
  intros Hv. unfold int32.
  change (2 ^ 31) with 2147483648 in *. change (2 ^ 32) with 4294967296.
  rewrite Z.mod_small by lia. lia.
Qed.

Lemma uint32_small (v : Z) : 0 <= v < 2 ^ 32 -> uint32 v = v.
Proof. intros Hv. unfold uint32. now apply Z.mod_small. Qed.

Lemma Uint32_PutUint32_app (v : Z) (rest : list byte) :
  0 <= v < 2 ^ 32 -> Uint32 (PutUint32 v ++ rest) = Return v.
Proof.
  intros Hv. rewrite <- (Uint32_PutUint32 v Hv). reflexivity.
Qed.

(** The bytes of a CopyData message: the tag, the length of everything
    after the tag, the data. *)
Lemma CopyData_wire_encode (length : Z) (data : list byte) :
  4 + len data <= 2 ^ 31 - 1 ->
  Encode (copyDataFormat length data)
  = Ok (x64 :: PutUint32 (4 + len data) ++ data).
Proof.
  intros Hfit. pose proof (len_nonneg data) as Hl.
  unfold Encode, copyDataFormat.
  cbn [MessageFormat_Fields encode_fields Field_Flags Field_Type Field_Data
       serialize mbind result_bind].
  rewrite app_nil_r.
  rewrite uint32_small by (change (2 ^ 32) with 4294967296;
                           change (2 ^ 31) with 2147483648 in Hfit; lia).
  reflexivity.
Qed.

Lemma CopyData_wire_decode (data : list byte) :
  4 + len data <= 2 ^ 31 - 1 ->
  Decode (x64 :: PutUint32 (4 + len data) ++ data) CopyData_DefaultMessage
  = Ok (copyDataFormat (4 + len data) data).
Proof.
  intros Hfit. pose proof (len_nonneg data) as Hl.
  assert (Hr : 0 <= 4 + len data < 2 ^ 32).
  { change (2 ^ 32) with 4294967296.
    change (2 ^ 31) with 2147483648 in Hfit. lia. }
  unfold Decode, CopyData_DefaultMessage, copyDataDefault.
  cbn [MessageFormat_Fields MessageFormat_Name decode_fields Field_Flags
       Field_Type Field_Name read mbind result_bind].
  rewrite Uint32_PutUint32_app by exact Hr.
  rewrite int32_small by lia.
  change (drop 4 (PutUint32 (4 + len data) ++ data)) with data.
  cbn [mbind result_bind].
  replace (4 + len data <? 4) with false by (symmetry; apply Z.ltb_ge; lia).
  replace (len data <? 4 + len data - 4) with false
    by (symmetry; apply Z.ltb_ge; lia).
  cbn [orb].
  replace (Z.to_nat (4 + len data - 4)) with (length data) by (unfold len; lia).
  rewrite take_ge, drop_all by lia.
  reflexivity.
Qed.

(** C1. Decoding the encoding of a message gives the message back, for
    both messages of the catalog and every value of their fields, an empty
    Data included: through the message formats that [Encode] and [Decode]
    exchange, and through the bytes of the frame whenever the frame's
    length fits the four-byte signed length field. *)
Theorem encode_decode_roundtrip :
  (forall m : CopyData,
      exists s, CopyData_Encode m = Return (Ok s)
                /\ CopyData_Decode s = Return (Ok m))
  /\ (forall m : ParseComplete,
      exists s, ParseComplete_encode m = Return (Ok s)
                /\ ParseComplete_decode s = Return (Ok m))
  /\ (forall m : CopyData,
      4 + len (CopyData_Data m) <= 2 ^ 31 - 1 ->
      exists s raw s',
        CopyData_Encode m = Return (Ok s)
        /\ Encode s = Ok raw
        /\ Decode raw CopyData_DefaultMessage = Ok s'
        /\ CopyData_Decode s' = Return (Ok m))
  /\ (forall m : ParseComplete,
      exists s raw s',
        ParseComplete_encode m = Return (Ok s)
        /\ Encode s = Ok raw
        /\ Decode raw ParseComplete_defaultMessage = Ok s'
        /\ ParseComplete_decode s' = Return (Ok m)).
Proof.
  split; [|split; [|split]].
  - intros [data]. exists (copyDataFormat 0 data). split; reflexivity.
  - intros []. exists parseCompleteDefault. split; reflexivity.
  - intros [data] Hfit. cbn [CopyData_Data] in Hfit.
    exists (copyDataFormat 0 data), (x64 :: PutUint32 (4 + len data) ++ data),
           (copyDataFormat (4 + len data) data).
    split; [reflexivity|]. split; [now apply CopyData_wire_encode|].
    split; [now apply CopyData_wire_decode|reflexivity].
  - intros []. exists parseCompleteDefault, [x31; x00; x00; x00; x04],
                      parseCompleteDefault.
    repeat split; reflexivity.
Qed.

Lemma encode_decode_roundtrip_witness :
  exists s raw s',
    CopyData_Encode (mkCopyData []) = Return (Ok s)
    /\ Encode s = Ok raw
    /\ Decode raw CopyData_DefaultMessage = Ok s'
    /\ CopyData_Decode s' = Return (Ok (mkCopyData [])).
Proof.
  destruct encode_decode_roundtrip as (_ & _ & Hwire & _).
  apply (Hwire (mkCopyData [])). vm_compute. discriminate.
Defined.

(** *** The length field *)







(** The message format [CopyData.Encode] returns still holds the
    placeholder: the length is the engine's to compute. *)
Lemma CopyData_Encode_placeholder (m : CopyData) :
  exists s, CopyData_Encode m = Return (Ok s)
            /\ MustGet s "MessageLength" = Return (AInt32 0).
Proof. exists (copyDataFormat 0 (CopyData_Data m)). split; reflexivity. Qed.

(** *** The registry *)

Lemma registry_after_init : registry = Return {[ x64 := CopyData_prototype ]}.
Proof.
  unfold registry, AddMessageHeader.
  change (header_tag (MessageFormat_Fields (DefaultMessage CopyData_prototype)))
    with (Some x64).
  cbv beta iota.
  rewrite (lookup_empty (M := gmap byte) x64).
  now rewrite insert_empty.
Qed.

(** C6. A frame whose header tag is not registered is not decoded:
    receiving it fails with UnknownMessageType carrying the tag, whatever
    follows the tag and whatever the registry holds under other tags.  In
    the registry the [init] functions build, where CopyData registers the
    tag 100 (the letter d), this is so for every other tag. *)
Theorem unknown_tag_rejected :
  registry = Return {[ x64 := CopyData_prototype ]}
  /\ (forall (reg : gmap byte (prototype Message)) (tag : byte) (rest : list byte),
        reg !! tag = None ->
        Receive reg (tag :: rest) = Return (Err (UnknownMessageType tag))
        /\ forall m, Receive reg (tag :: rest) <> Return (Ok m))
  /\ (forall (tag : byte) (rest : list byte),
        tag <> x64 ->
        Receive {[ x64 := CopyData_prototype ]} (tag :: rest)
        = Return (Err (UnknownMessageType tag))).
Proof.
  split; [exact registry_after_init|].
  assert (H : forall (reg : gmap byte (prototype Message)) tag rest,
             reg !! tag = None ->
             Receive reg (tag :: rest) = Return (Err (UnknownMessageType tag))).
  { intros reg tag rest Hnone. unfold Receive. now rewrite Hnone. }
  split.
  - intros reg tag rest Hnone. split; [now apply H|].
    intros m. rewrite (H _ _ _ Hnone). discriminate.
  - intros tag rest Hne. apply H. now apply lookup_singleton_ne.
Qed.

Lemma unknown_tag_rejected_witness :
  Receive {[ x64 := CopyData_prototype ]} [x31; x00; x00; x00; x04]
  = Return (Err (UnknownMessageType x31)).
Proof.
  destruct unknown_tag_rejected as (_ & _ & H).
  apply H. discriminate.
Defined.

Example CopyData_frame :
  (s ← (match CopyData_Encode (mkCopyData [x68; x69]) with
        | Return r => r
        | Panics _ => Err MalformedMessage
        end);
   Encode s)
  = Ok [x64; x00; x00; x00; x06; x68; x69].
Proof. reflexivity. Qed.

Example CopyData_frame_short :
  Decode [x64; x00; x00; x00; x07; x68; x69] CopyData_DefaultMessage
  = Err MalformedMessage.
Proof. reflexivity. Qed.

Example CopyData_frame_long :
  Decode [x64; x00; x00; x00; x05; x68; x69] CopyData_DefaultMessage
  = Err MalformedMessage.
Proof. reflexivity. Qed.

(** A registered tag is decoded by its own prototype. *)
Lemma registered_tag_decoded (data : list byte) :
  4 + len data <= 2 ^ 31 - 1 ->
  Receive {[ x64 := CopyData_prototype ]} (x64 :: PutUint32 (4 + len data) ++ data)
  = Return (Ok (MCopyData (mkCopyData data))).
Proof.
  intros Hfit. unfold Receive. rewrite lookup_singleton_eq.
  cbn [DefaultMessage CopyData_prototype].
  rewrite CopyData_wire_decode by exact Hfit. reflexivity.
Qed.

End MessagesFacts.

(* --------------------------------------------------------------------- *)
(** ** server: the accept loop                                            *)
(* --------------------------------------------------------------------- *)

Module ListenerFacts.
Import Server.

Section Listener.

Context {Conn Handler : Type}.
Implicit Types (l : Listener Handler) (results : list (accepted Conn)).

Lemma Accept_events l results :
  (Accept l results).1 = handled l <$> until_closed results.
Proof.
  induction results as [|[conn|err] results IH]; [reflexivity| |].
  - cbn [Accept until_closed fmap list_fmap].
    destruct (Accept l results) as [events st]. cbn in *. now rewrite IH.
  - cbn [Accept until_closed].
    destruct (decide (err = closed_text)); [reflexivity|].
    destruct (Accept l results) as [events st]. cbn in *. now rewrite IH.
Qed.

Lemma Accept_returned l results :
  (Accept l results).2 = Returned <-> AcceptErr closed_text ∈ results.
Proof.
  induction results as [|[conn|err] results IH].
  - cbn. split; [discriminate|]. intros H. inversion H.
  - cbn [Accept]. destruct (Accept l results) as [events st]. cbn in *.
    rewrite elem_of_cons, IH. split; [tauto|]. intros [H|H]; [discriminate|exact H].
  - cbn [Accept]. destruct (decide (err = closed_text)) as [->|Hne].
    + cbn. split; [intros _; apply list_elem_of_here|reflexivity].
    + destruct (Accept l results) as [events st]. cbn in *.
      rewrite elem_of_cons, IH. split; [tauto|].
      intros [H|H]; [congruence|exact H].
Qed.

(** C7. For every connection the listener accepts, the loop creates a new
    connection handler for that connection and starts it as a goroutine,
    and does nothing else for it; an accept error that says the listener
    is closed ends the loop, and nothing else does; any other accept error
    is printed and the loop goes on accepting. *)
Theorem Accept_loop l results :
  (Accept l results).1 = handled l <$> until_closed results
  /\ ((Accept l results).2 = Returned <-> AcceptErr closed_text ∈ results)
  /\ (forall conn,
        Accept l (AcceptConn conn :: results)
        = (Go_HandleConnection (NewConnectionHandler conn (cfg_Handler l))
             :: (Accept l results).1,
           (Accept l results).2))
  /\ (forall err, err <> closed_text ->
        Accept l (AcceptErr err :: results)
        = (Printf "Unable to accept connection:\n%v\n" err :: (Accept l results).1,
           (Accept l results).2))
  /\ Accept l (AcceptErr closed_text :: results) = ([], Returned).
Proof.
  split; [apply Accept_events|]. split; [apply Accept_returned|].
  split; [|split].
  - intros conn. cbn [Accept]. now destruct (Accept l results).
  - intros err Hne. cbn [Accept].
    destruct (decide (err = closed_text)); [congruence|].
    now destruct (Accept l results).
  - cbn [Accept]. destruct (decide (closed_text = closed_text)); congruence.
Qed.

End Listener.

Lemma Accept_loop_witness :
  Accept (mkListener tt) [AcceptErr "timeout"; AcceptConn 7%nat]
  = ([Printf "Unable to accept connection:\n%v\n" "timeout";
      Go_HandleConnection (NewConnectionHandler 7%nat tt)], Accepting).
Proof.
  destruct (Accept_loop (mkListener tt) [AcceptConn 7%nat]) as (_ & _ & _ & H & _).
  apply (H "timeout"). discriminate.
Defined.

End ListenerFacts.

(* --------------------------------------------------------------------- *)
(** ** server: discard until Sync                                         *)
(* --------------------------------------------------------------------- *)

Module ProtocolFacts.
Import Server.

Section Protocol.

Context {Statement Row : Type}.
Variable compile : string -> option Statement.
Variable execute : Statement -> list (list byte) -> option (list Row * string).

Abbreviation step := (step compile execute).
Abbreviation run := (run compile execute).
Implicit Types (s : @Session Statement Row) (m : FrontendMessage).




(** A Bind that names no prepared statement fails. *)
Lemma step_Bind_unknown s (portal name : string) (parameters : list (list byte)) :
  status s <> FailedTransaction -> statements s !! name = None ->
  step s (Bind portal name parameters) = fails s [].
Proof.
  intros Hs Hn. unfold Server.step. rewrite Hn.
  destruct (status s); congruence.
Qed.

(** Membership of a given action in an explicit list of actions. *)
Ltac elem_inv H :=
  repeat first
    [ discriminate H
    | apply elem_of_nil in H; destruct H
    | apply elem_of_app in H as [H|H]
    | apply elem_of_cons in H as [H|H]
    | apply list_elem_of_fmap in H as (? & H & _) ].


(** A step of a connection that is not failed reports an error only by
    failing. *)
Lemma step_error s m :
  status s <> FailedTransaction ->
  Send ErrorResponse ∈ (step s m).2 ->
  exists before, step s m = fails s before.
Proof.
  intros Hs Hin. unfold Server.step in *.
  destruct (status s) eqn:Est; [| |congruence];
    destruct m as [? query|? name ?|[|] name|name ?| |];
    try destruct (compile query);
    try destruct (statements s !! name);
    try (destruct (portals s !! name) as [[? ? [[? ?]|]]|];
         cbn [Portal_cursor Portal_statement Portal_parameters] in *;
         try destruct (execute _ _) as [[? ?]|];
         try destruct (fetch _ _));
    first [ eexists; reflexivity
          | exfalso; cbn in Hin; elem_inv Hin;
            match goal with
            | H : Send ErrorResponse = Send (match ?l with _ => _ end) |- _ =>
                destruct l; discriminate H
            end ].
Qed.


(** These are all the errors: a step of a connection that is not failed
    reports an error only on an erroneous message. *)
Lemma step_error_erroneous s m :
  status s <> FailedTransaction ->
  Send ErrorResponse ∈ (step s m).2 ->
  erroneous compile execute s m.
Proof.
  intros Hs Hin. unfold Server.step, erroneous in *.
  destruct (status s) eqn:Est; [| |congruence];
    destruct m as [? query|? name ?|[|] name|name ?| |];
    try destruct (compile query);
    try destruct (statements s !! name);
    try (destruct (portals s !! name) as [[? ? [[? ?]|]]|];
         cbn [Portal_cursor Portal_statement Portal_parameters] in *;
         try destruct (execute _ _) as [[? ?]|];
         try destruct (fetch _ _));
    first [ reflexivity
          | exact I
          | split; reflexivity
          | exfalso; cbn in Hin; elem_inv Hin;
            match goal with
            | H : Send ErrorResponse = Send (match ?l with _ => _ end) |- _ =>
                destruct l; discriminate H
            end ].
Qed.


(** What a Sync reports: the status of a connection that is not failed,
    and for a failed one the failed-transaction status exactly when a
    transaction was open. *)
Lemma Sync_reports s (st : TransactionStatus) :
  Send (ReadyForQuery st) ∈ (step s Sync).2 ->
  st = match status s with
       | FailedTransaction =>
           if transactionOpen s then FailedTransaction else Idle
       | st' => st'
       end.
Proof.
  unfold Server.step. destruct (status s); cbn; intros Hin;
    apply list_elem_of_singleton in Hin; now inversion Hin.
Qed.

End Protocol.

(** The partial fetch of section 8: two Executes with a row limit of 1
    on a portal of two rows send the first row and PortalSuspended, then
    the second row and CommandComplete, with one call of the collaborator. *)
Example partial_fetch :
  let compile := fun query : string => Some query in
  let execute := fun (_ : string) (_ : list (list byte)) =>
                   Some ([1%nat; 2%nat], "SELECT 2") in
  (run compile execute (mkSession Idle false ∅ ∅)
       [Parse "" "SELECT * FROM t"; Bind "" "" []; Execute "" 1; Execute "" 1; Sync]).2
  = [CallCompile "SELECT * FROM t"; Send ParseCompleteMsg; Send BindComplete;
     CallExecute "SELECT * FROM t" []; Send (DataRow 1%nat); Send PortalSuspended;
     Send (DataRow 2%nat); Send (CommandComplete "SELECT 2");
     Send (ReadyForQuery Idle)].
Proof. reflexivity. Qed.



End ProtocolFacts.

(* --------------------------------------------------------------------- *)
(** ** Go: the order of byte strings                                      *)
(* --------------------------------------------------------------------- *)

Module OrderFacts.
Import GoFacts.

Lemma byte_to_Z_inj (x y : byte) : byte_to_Z x = byte_to_Z y -> x = y.
Proof.
  intros H. rewrite <- (byte_of_to_Z x), <- (byte_of_to_Z y). now rewrite H.
Qed.

Lemma bytes_Compare_range (a b : list byte) :
  bytes_Compare a b = -1 \/ bytes_Compare a b = 0 \/ bytes_Compare a b = 1.
Proof.
  revert b. induction a as [|x a IH]; intros [|y b]; cbn; auto.
  destruct (byte_to_Z x <? byte_to_Z y); auto.
  destruct (byte_to_Z y <? byte_to_Z x); auto.
Qed.

Lemma bytes_Compare_eq (a b : list byte) : bytes_Compare a b = 0 <-> a = b.
Proof.
  revert b. induction a as [|x a IH]; intros [|y b]; cbn;
    try (split; [discriminate|discriminate]); [tauto|].
  destruct (byte_to_Z x <? byte_to_Z y) eqn:H1; [zbool H1|zbool H1].
  - split; [discriminate|]. intros E. inversion E; subst. lia.
  - destruct (byte_to_Z y <? byte_to_Z x) eqn:H2; [zbool H2|zbool H2].
    + split; [discriminate|]. intros E. inversion E; subst. lia.
    + rewrite IH. split.
      * intros ->. f_equal. apply byte_to_Z_inj. lia.
      * intros E. now inversion E.
Qed.

Lemma bytes_Compare_antisym (a b : list byte) :
  bytes_Compare b a = - bytes_Compare a b.
Proof.
  revert b. induction a as [|x a IH]; intros [|y b]; cbn; try reflexivity.
  destruct (byte_to_Z x <? byte_to_Z y) eqn:H1;
    destruct (byte_to_Z y <? byte_to_Z x) eqn:H2;
    try zbool H1; try zbool H2; try reflexivity; try lia.
  apply IH.
Qed.

Lemma bytes_Compare_lt (a b : list byte) :
  bytes_Compare a b = -1 <-> string_lt a b = true.
Proof.
  revert b. induction a as [|x a IH]; intros [|y b]; cbn;
    try (split; discriminate); try tauto.
  destruct (byte_to_Z x <? byte_to_Z y); [tauto|].
  destruct (byte_to_Z y <? byte_to_Z x); [split; discriminate|].
  apply IH.
Qed.

(** What the three-way tests of a [Compare] method compute. *)
Lemma three_way (a b : list byte) :
  (if decide (a = b) then 0 else if string_lt a b then -1 else 1)
  = bytes_Compare a b.
Proof.
  destruct (decide (a = b)) as [->|Hne].
  - symmetry. now apply bytes_Compare_eq.
  - destruct (string_lt a b) eqn:Hlt.
    + symmetry. now apply bytes_Compare_lt.
    + destruct (bytes_Compare_range a b) as [H|[H|H]]; [| |now rewrite H].
      * apply bytes_Compare_lt in H. congruence.
      * apply bytes_Compare_eq in H. congruence.
Qed.

(** The order is transitive. *)
Lemma bytes_Compare_trans (a b c : list byte) :
  bytes_Compare a b = -1 -> bytes_Compare b c = -1 -> bytes_Compare a c = -1.
Proof.
  revert b c. induction a as [|x a IH]; intros [|y b] [|z c]; cbn;
    try discriminate; try reflexivity.
  destruct (byte_to_Z x <? byte_to_Z y) eqn:H1;
    destruct (byte_to_Z y <? byte_to_Z z) eqn:H2;
    destruct (byte_to_Z x <? byte_to_Z z) eqn:H3;
    destruct (byte_to_Z y <? byte_to_Z x) eqn:H4;
    destruct (byte_to_Z z <? byte_to_Z y) eqn:H5;
    destruct (byte_to_Z z <? byte_to_Z x) eqn:H6;
    try zbool H1; try zbool H2; try zbool H3; try zbool H4; try zbool H5;
    try zbool H6; try discriminate; try reflexivity; try lia.
  apply IH.
Qed.

End OrderFacts.

(* --------------------------------------------------------------------- *)
(** ** server/types: the other methods of varchar                         *)
(* --------------------------------------------------------------------- *)

Module VarCharMethodsFacts.
Import Types GoFacts Utf8Facts VarCharFacts OrderFacts.

(** The first runes of an input are a prefix of it. *)
Lemma first_runes_take (n : nat) (p : list byte) :
  exists k, (k <= length p)%nat /\ first_runes n p = take k p.
Proof.
  destruct (Z_le_gt_dec (Z.of_nat n) (RuneCount p)) as [Hle|Hgt].
  - destruct (truncate_loop_spec n p Hle) as (k & Hk & _ & Ht & _).
    exists k. now split.
  - exists (length p). split; [lia|].
    rewrite first_runes_all by lia. now rewrite take_ge.
Qed.

Lemma RuneCount_first_runes_min (n : nat) (p : list byte) :
  RuneCount (first_runes n p) = Z.min (Z.of_nat n) (RuneCount p).
Proof.
  destruct (Z_le_gt_dec (Z.of_nat n) (RuneCount p)) as [Hle|Hgt].
  - destruct (truncate_loop_spec n p Hle) as (k & _ & _ & Ht & Hc).
    rewrite <- Ht, Hc. lia.
  - rewrite first_runes_all by lia. lia.
Qed.

Lemma len_first_runes (n : nat) (p : list byte) : len (first_runes n p) <= len p.
Proof.
  destruct (first_runes_take n p) as (k & Hk & ->).
  unfold len. rewrite length_take. lia.
Qed.

(** Taking the first [n] runes twice is taking them once. *)
Lemma first_runes_idem (n : nat) (p : list byte) :
  first_runes n (first_runes n p) = first_runes n p.
Proof.
  apply first_runes_all. rewrite RuneCount_first_runes_min. lia.
Qed.

(** A rune has at most four bytes. *)
Lemma len_RuneCount (p : list byte) : len p <= 4 * RuneCount p.
Proof.
  remember (length p) as m eqn:Hm. revert p Hm.
  induction m as [m IH] using lt_wf_ind. intros p Hm.
  destruct p as [|c rest]; [rewrite RuneCount_nil; unfold len; simpl; lia|].
  pose proof (width_bounds (c :: rest) ltac:(congruence)) as Hw.
  pose proof (DecodeRune_size (c :: rest) ltac:(congruence)) as [Hs _].
  rewrite RuneCount_step by congruence.
  assert (Hlt : (length (drop (width (c :: rest)) (c :: rest)) < m)%nat)
    by (rewrite length_drop; lia).
  specialize (IH _ Hlt _ eq_refl).
  unfold len, width in *. rewrite length_drop in IH. lia.
Qed.

Section VarChar.

Variable b : VarCharType.
Hypothesis Length_uint32 : 0 <= Length b < 2 ^ 32.

Abbreviation chars := (Z.to_nat (Length b)).

Lemma Convert_string (val : list byte) :
  len val < 2 ^ 32 ->
  VarCharType_Convert b (AString val)
  = Return (AString (first_runes chars val), InRange, None).
Proof. intros H. now apply Convert_text_first_runes. Qed.

(** Converting a converted value changes nothing. *)
Theorem Convert_idempotent (val r : list byte) :
  len val < 2 ^ 32 ->
  VarCharType_Convert b (AString val) = Return (AString r, InRange, None) ->
  VarCharType_Convert b (AString r) = Return (AString r, InRange, None).
Proof.
  intros Hlen Hc. rewrite Convert_string in Hc by exact Hlen.
  inversion Hc as [Hr].
  rewrite Convert_string by (pose proof (len_first_runes chars val); lia).
  now rewrite first_runes_idem.
Qed.

(** A converted value fits the byte length the type announces for its
    text: four bytes for each of its [Length] characters. *)
Theorem Convert_within_MaxTextResponseByteLength (val r : list byte) :
  Length b <= VarCharMaxLength ->
  len val < 2 ^ 32 ->
  VarCharType_Convert b (AString val) = Return (AString r, InRange, None) ->
  len r <= VarCharType_MaxTextResponseByteLength b.
Proof.
  intros Hmax Hlen Hc. rewrite Convert_string in Hc by exact Hlen.
  inversion Hc as [Hr].
  unfold VarCharType_MaxTextResponseByteLength, uint32, VarCharMaxLength in *.
  rewrite Z.mod_small by (change (2 ^ 32) with 4294967296; lia).
  pose proof (len_RuneCount (first_runes chars val)) as H4.
  rewrite RuneCount_first_runes_min in H4. lia.
Qed.

(** A string that is not cut down to nothing comes back from its
    serialisation as [Convert] made it. *)
Theorem Serialize_Deserialize (val : list byte) :
  len val < 2 ^ 32 -> val <> [] -> 0 < Length b ->
  exists r,
    r <> []
    /\ VarCharType_Convert b (AString val) = Return (AString r, InRange, None)
    /\ VarCharType_SerializeValue b (AString val) = Return (Some r, None)
    /\ VarCharType_DeserializeValue r = (AString r, None).
Proof.
  intros Hlen Hval Hpos. exists (first_runes chars val).
  assert (Hne : first_runes chars val <> []).
  { intros E. pose proof (RuneCount_first_runes_min chars val) as Hc.
    rewrite E, RuneCount_nil in Hc.
    pose proof (RuneCount_pos val Hval). lia. }
  split; [exact Hne|]. split; [now apply Convert_string|].
  split.
  - unfold VarCharType_SerializeValue. now rewrite Convert_string.
  - unfold VarCharType_DeserializeValue.
    destruct (first_runes chars val) eqn:E; [congruence|reflexivity].
Qed.

(** The empty string does not: it is serialised as an empty slice, which
    is deserialised as [nil]; so is every string under a length of 0. *)
Theorem Serialize_Deserialize_empty (val : list byte) :
  len val < 2 ^ 32 ->
  (val = [] \/ Length b = 0) <->
  (VarCharType_SerializeValue b (AString val) = Return (Some [], None)
   /\ VarCharType_DeserializeValue [] = (ANil, None)).
Proof.
  intros Hlen. unfold VarCharType_SerializeValue.
  rewrite Convert_string by exact Hlen. split.
  - intros [->|H0].
    + now rewrite first_runes_nil.
    + rewrite H0. split; reflexivity.
  - intros [Hs _]. inversion Hs as [Hr].
    destruct val as [|c rest]; [now left|right].
    pose proof (RuneCount_first_runes_min chars (c :: rest)) as Hc.
    rewrite Hr, RuneCount_nil in Hc.
    pose proof (RuneCount_pos (c :: rest) ltac:(congruence)). lia.
Qed.

(** [Compare] on two strings compares what [Convert] makes of them: it
    returns -1, 0 or 1 and no error, 0 exactly when the two have the same
    first [Length] characters, and the opposite sign when the arguments are
    swapped. *)
Lemma Compare_bytes_Compare (a a' : list byte) :
  len a < 2 ^ 32 -> len a' < 2 ^ 32 ->
  VarCharType_Compare b (AString a) (AString a')
  = Return (bytes_Compare (first_runes chars a) (first_runes chars a'), None).
Proof.
  intros Ha Ha'. unfold VarCharType_Compare.
  rewrite !Convert_string by assumption. cbn [mbind outcome_bind].
  rewrite <- three_way.
  destruct (decide (first_runes chars a = first_runes chars a')) as [E|E];
    [reflexivity|].
  now destruct (string_lt (first_runes chars a) (first_runes chars a')).
Qed.

Theorem Compare_strings (s1 s2 : list byte) :
  len s1 < 2 ^ 32 -> len s2 < 2 ^ 32 ->
  let c := bytes_Compare (first_runes chars s1) (first_runes chars s2) in
  VarCharType_Compare b (AString s1) (AString s2) = Return (c, None)
  /\ VarCharType_Compare b (AString s2) (AString s1) = Return (- c, None)
  /\ (c = -1 \/ c = 0 \/ c = 1)
  /\ (c = 0 <-> first_runes chars s1 = first_runes chars s2).
Proof.
  intros H1 H2 c.
  split; [now apply Compare_bytes_Compare|]. split.
  - rewrite Compare_bytes_Compare by assumption. unfold c.
    now rewrite <- bytes_Compare_antisym.
  - split; [apply bytes_Compare_range|apply bytes_Compare_eq].
Qed.

(** [nil] sorts before every string, whatever the string. *)
Lemma Compare_nil (s : list byte) :
  VarCharType_Compare b ANil (AString s) = Return (-1, None)
  /\ VarCharType_Compare b (AString s) ANil = Return (1, None)
  /\ VarCharType_Compare b ANil ANil = Return (0, None).
Proof. repeat split. Qed.

Lemma SerializedCompare_bytes_Compare (r1 r2 : list byte) :
  SerializedCompare r1 r2 = (bytes_Compare r1 r2, None).
Proof. destruct r1, r2; reflexivity. Qed.

Lemma SerializeValue_inv (s r : list byte) :
  VarCharType_SerializeValue b (AString s) = Return (Some r, None) ->
  exists rng, VarCharType_Convert b (AString s) = Return (AString r, rng, None).
Proof.
  unfold VarCharType_SerializeValue.
  destruct (VarCharType_Convert b (AString s)) as [[[c rng] [e|]]|p];
    cbn [mbind outcome_bind]; try discriminate.
  destruct c; intros H; inversion H. now exists rng.
Qed.

(** Comparing the serialised values gives what comparing the strings
    gives, whatever the strings. *)
Theorem SerializedCompare_Compare (s1 s2 r1 r2 : list byte) :
  VarCharType_SerializeValue b (AString s1) = Return (Some r1, None) ->
  VarCharType_SerializeValue b (AString s2) = Return (Some r2, None) ->
  VarCharType_Compare b (AString s1) (AString s2)
  = Return (SerializedCompare r1 r2).
Proof.
  intros Hs1 Hs2.
  apply SerializeValue_inv in Hs1 as [g1 E1].
  apply SerializeValue_inv in Hs2 as [g2 E2].
  unfold VarCharType_Compare. rewrite E1. cbn [mbind outcome_bind].
  rewrite E2. cbn [mbind outcome_bind].
  rewrite SerializedCompare_bytes_Compare, <- three_way.
  destruct (decide (r1 = r2)); [reflexivity|].
  now destruct (string_lt r1 r2).
Qed.

End VarChar.

Lemma Convert_idempotent_witness :
  VarCharType_Convert (mkVarCharType 2) (AString [x68; xc3; xa9])
  = Return (AString [x68; xc3; xa9], InRange, None).
Proof.
  apply (Convert_idempotent (mkVarCharType 2) ltac:(cbn; lia)
           [x68; xc3; xa9; x6c] [x68; xc3; xa9]);
    [vm_compute; reflexivity|reflexivity].
Defined.

Lemma Convert_within_MaxTextResponseByteLength_witness :
  len [x68; xc3; xa9] <= VarCharType_MaxTextResponseByteLength (mkVarCharType 2).
Proof.
  apply (Convert_within_MaxTextResponseByteLength (mkVarCharType 2)
           ltac:(cbn; lia) [x68; xc3; xa9; x6c] [x68; xc3; xa9]);
    [vm_compute; discriminate|vm_compute; reflexivity|reflexivity].
Defined.

Lemma Serialize_Deserialize_witness :
  exists r,
    r <> []
    /\ VarCharType_Convert (mkVarCharType 2) (AString [x68; xc3; xa9; x6c])
       = Return (AString r, InRange, None)
    /\ VarCharType_SerializeValue (mkVarCharType 2) (AString [x68; xc3; xa9; x6c])
       = Return (Some r, None)
    /\ VarCharType_DeserializeValue r = (AString r, None).
Proof.
  apply (Serialize_Deserialize (mkVarCharType 2) ltac:(cbn; lia));
    [vm_compute; reflexivity|discriminate|cbn; lia].
Defined.

Lemma Serialize_Deserialize_empty_witness :
  VarCharType_SerializeValue (mkVarCharType 0) (AString [x68; x69])
  = Return (Some [], None)
  /\ VarCharType_DeserializeValue [] = (ANil, None).
Proof.
  apply (Serialize_Deserialize_empty (mkVarCharType 0) ltac:(cbn; lia) [x68; x69]);
    [vm_compute; reflexivity|now right].
Defined.

Lemma Compare_strings_witness :
  VarCharType_Compare (mkVarCharType 3) (AString [x61; x62; x63; x64])
                      (AString [x61; x62; x63; x65])
  = Return (0, None).
Proof.
  destruct (Compare_strings (mkVarCharType 3) ltac:(cbn; lia)
              [x61; x62; x63; x64] [x61; x62; x63; x65]) as (H & _);
    [vm_compute; reflexivity|vm_compute; reflexivity|exact H].
Defined.

Lemma SerializedCompare_Compare_witness :
  VarCharType_Compare (mkVarCharType 3) (AString [x61; x62]) (AString [x61; x63])
  = Return (SerializedCompare [x61; x62] [x61; x63]).
Proof.
  apply (SerializedCompare_Compare (mkVarCharType 3)); reflexivity.
Defined.

End VarCharMethodsFacts.

(* --------------------------------------------------------------------- *)
(** ** server/types: the other methods of xid                             *)
(* --------------------------------------------------------------------- *)

Module XidMethodsFacts.
Import Types GoFacts OrderFacts XidFacts.

(** The bytes of a big-endian word, as numbers. *)
Lemma PutUint32_digits (v : Z) :
  0 <= v < 2 ^ 32 ->
  exists d0 d1 d2 d3 : byte,
    PutUint32 v = [d0; d1; d2; d3]
    /\ v = byte_to_Z d3 + 256 * (byte_to_Z d2 + 256 * (byte_to_Z d1
                                   + 256 * byte_to_Z d0)).
Proof.
  intros Hv. eexists _, _, _, _. split; [reflexivity|].
  rewrite !byte_to_of_Z, !Z.shiftr_div_pow2 by lia.
  change (2 ^ 8) with 256. change (2 ^ 16) with 65536.
  change (2 ^ 24) with 16777216. change (2 ^ 32) with 4294967296 in Hv.
  replace (v / 65536) with (v / 256 / 256)
    by (rewrite Z.div_div by lia; reflexivity).
  replace (v / 16777216) with (v / 256 / 256 / 256)
    by (rewrite !Z.div_div by lia; reflexivity).
  assert (Hq : v / 256 / 256 / 256 < 256).
  { rewrite !Z.div_div by lia. apply Z.div_lt_upper_bound; lia. }
  assert (Hq0 : 0 <= v / 256 / 256 / 256) by (repeat apply Z.div_pos; lia).
  rewrite (Z.mod_small (v / 256 / 256 / 256)) by lia.
  pose proof (Z.div_mod v 256 ltac:(lia)) as E1.
  pose proof (Z.div_mod (v / 256) 256 ltac:(lia)) as E2.
  pose proof (Z.div_mod (v / 256 / 256) 256 ltac:(lia)) as E3.
  lia.
Qed.

(** Big-endian words compare as the numbers they hold. *)
Lemma bytes_Compare_PutUint32 (u1 u2 : Z) :
  0 <= u1 < 2 ^ 32 -> 0 <= u2 < 2 ^ 32 ->
  bytes_Compare (PutUint32 u1) (PutUint32 u2)
  = if u1 <? u2 then -1 else if u2 <? u1 then 1 else 0.
Proof.
  intros H1 H2.
  destruct (PutUint32_digits u1 H1) as (a0 & a1 & a2 & a3 & -> & E1).
  destruct (PutUint32_digits u2 H2) as (b0 & b1 & b2 & b3 & -> & E2).
  pose proof (byte_to_Z_range a0). pose proof (byte_to_Z_range a1).
  pose proof (byte_to_Z_range a2). pose proof (byte_to_Z_range a3).
  pose proof (byte_to_Z_range b0). pose proof (byte_to_Z_range b1).
  pose proof (byte_to_Z_range b2). pose proof (byte_to_Z_range b3).
  cbn [bytes_Compare].
  repeat match goal with
         | |- context [?x <? ?y] =>
             let Hc := fresh "Hc" in destruct (x <? y) eqn:Hc; zbool Hc
         end; try reflexivity; lia.
Qed.

(** Two non-empty serialised values are compared byte by byte. *)
Lemma SerializedCompare_nonempty (a b : list byte) :
  a <> [] -> b <> [] -> SerializedCompare a b = (bytes_Compare a b, None).
Proof.
  intros Ha Hb. unfold SerializedCompare.
  assert (H1 : 0 < len a) by (destruct a; [congruence|unfold len; simpl; lia]).
  assert (H2 : 0 < len b) by (destruct b; [congruence|unfold len; simpl; lia]).
  destruct (len a =? 0) eqn:E1; [zbool E1; lia|].
  destruct (len b =? 0) eqn:E2; [zbool E2; lia|].
  now rewrite !andb_false_r.
Qed.

Section Xid.

Variable convertUint32 : any -> converted.
Hypothesis convertUint32_uint32 :
  forall v, 0 <= v < 2 ^ 32 -> convertUint32 (AUint32 v) = (AUint32 v, InRange, None).

(** Serialised xids compare as the xids read as signed 32-bit integers,
    not as the unsigned numbers they are: every xid from 2^31 on sorts
    before every xid below 2^31. *)
Theorem SerializedCompare_signed (v1 v2 : Z) (r1 r2 : list byte) :
  0 <= v1 < 2 ^ 32 -> 0 <= v2 < 2 ^ 32 ->
  XidType_SerializeValue convertUint32 (AUint32 v1) = Return (Some r1, None) ->
  XidType_SerializeValue convertUint32 (AUint32 v2) = Return (Some r2, None) ->
  SerializedCompare r1 r2
  = (if int32 v1 <? int32 v2 then -1 else if int32 v2 <? int32 v1 then 1 else 0,
     None)
  /\ (v1 < 2 ^ 31 <= v2 -> SerializedCompare r1 r2 = (1, None)).
Proof.
  intros H1 H2 Hs1 Hs2.
  rewrite (SerializeValue_uint32 convertUint32 convertUint32_uint32) in Hs1, Hs2
    by assumption.
  inversion Hs1 as [E1]. inversion Hs2 as [E2]. clear Hs1 Hs2 E1 E2.
  assert (Hc : SerializedCompare (PutUint32 ((v1 + 2 ^ 31) mod 2 ^ 32))
                                 (PutUint32 ((v2 + 2 ^ 31) mod 2 ^ 32))
               = (if int32 v1 <? int32 v2 then -1
                  else if int32 v2 <? int32 v1 then 1 else 0, None)).
  { rewrite SerializedCompare_nonempty by discriminate.
    rewrite bytes_Compare_PutUint32 by (apply Z.mod_pos_bound; lia).
    unfold int32.
    repeat match goal with
           | |- context [?x <? ?y] =>
               let Hc := fresh "Hc" in destruct (x <? y) eqn:Hc; zbool Hc
           end; try reflexivity; lia. }
  split; [exact Hc|]. intros Hhalf. rewrite Hc. unfold int32.
  change (2 ^ 32) with 4294967296 in *. change (2 ^ 31) with 2147483648 in *.
  replace ((v1 + 2147483648) mod 4294967296) with (v1 + 2147483648)
    by (symmetry; apply Z.mod_small; lia).
  replace ((v2 + 2147483648) mod 4294967296) with (v2 - 2147483648)
    by (apply (Z.mod_unique _ _ 1); lia).
  repeat match goal with
         | |- context [?x <? ?y] =>
             let Hc := fresh "Hc" in destruct (x <? y) eqn:Hc; zbool Hc
         end; try reflexivity; lia.
Qed.

(** Formatting a serialised xid gives the text formatting the xid gives,
    its decimal digits; an empty slice is formatted as the empty text. *)
Theorem FormatSerializedValue_SerializeValue (v : Z) (r : list byte) :
  0 <= v < 2 ^ 32 ->
  XidType_SerializeValue convertUint32 (AUint32 v) = Return (Some r, None) ->
  XidType_FormatSerializedValue convertUint32 r = Return (FormatInt v, None)
  /\ XidType_FormatValue convertUint32 (AUint32 v) = Return (FormatInt v, None)
  /\ XidType_FormatSerializedValue convertUint32 [] = Return ([], None).
Proof.
  intros Hv Hs.
  rewrite (SerializeValue_uint32 convertUint32 convertUint32_uint32) in Hs
    by assumption.
  inversion Hs as [E]. clear Hs E.
  assert (Hf : XidType_FormatValue convertUint32 (AUint32 v)
               = Return (FormatInt v, None)).
  { unfold XidType_FormatValue, XidType_Convert.
    now rewrite convertUint32_uint32. }
  split; [|split; [exact Hf|reflexivity]].
  unfold XidType_FormatSerializedValue.
  rewrite DeserializeValue_PutUint32 by (apply Z.mod_pos_bound; lia).
  cbn [mbind outcome_bind].
  pose proof (uint32_offset_inverse v Hv) as Hi. unfold uint32 in Hi.
  rewrite (Z.mod_small v) in Hi by lia. rewrite Z.mod_mod in Hi by lia.
  rewrite Hi. exact Hf.
Qed.

End Xid.

Example FormatInt_zero : FormatInt 0 = [x30].
Proof. reflexivity. Qed.

Example FormatInt_max_uint32 :
  FormatInt 4294967295 = [x34; x32; x39; x34; x39; x36; x37; x32; x39; x35].
Proof. reflexivity. Qed.

Example FormatInt_negative : FormatInt (-120) = [x2d; x31; x32; x30].
Proof. reflexivity. Qed.

Lemma SerializedCompare_signed_witness :
  SerializedCompare [x80; x00; x00; x01] [x00; x00; x00; x00] = (1, None).
Proof.
  assert (H : forall v, 0 <= v < 2 ^ 32 ->
                convertUint32_strict (AUint32 v) = (AUint32 v, InRange, None))
    by reflexivity.
  destruct (SerializedCompare_signed convertUint32_strict H 1 (2 ^ 31)
              [x80; x00; x00; x01] [x00; x00; x00; x00]) as (_ & Hhalf);
    [lia|lia|reflexivity|reflexivity|].
  apply Hhalf. lia.
Defined.

Lemma FormatSerializedValue_SerializeValue_witness :
  XidType_FormatSerializedValue convertUint32_strict [x80; x00; x00; x07]
  = Return (FormatInt 7, None).
Proof.
  assert (H : forall v, 0 <= v < 2 ^ 32 ->
                convertUint32_strict (AUint32 v) = (AUint32 v, InRange, None))
    by reflexivity.
  destruct (FormatSerializedValue_SerializeValue convertUint32_strict H 7
              [x80; x00; x00; x07]) as (Hf & _);
    [lia|reflexivity|exact Hf].
Defined.

End XidMethodsFacts.

(* --------------------------------------------------------------------- *)
(** ** server/functions: left and char_length                             *)
(* --------------------------------------------------------------------- *)

Module FunctionsMoreFacts.
Import Functions Types GoFacts Utf8Facts VarCharFacts VarCharMethodsFacts.

(** [left] of a [left]: taking [n] bytes and then [m] of them, with
    [m <= n], is taking [m] bytes. *)
Theorem left_string_left_string (s r : list byte) (n m : Z) :
  0 <= m <= n -> n <= len s ->
  left_string (str s) (int n) = Return (str r) ->
  left_string (str r) (int m) = left_string (str s) (int m).
Proof.
  intros Hm Hn Hl. unfold left_string, str, int in *. cbn in *.
  destruct (n >=? 0) eqn:En; [|zbool En; lia].
  destruct (m >=? 0) eqn:Em; [|zbool Em; lia].
  rewrite slice_to_in_range in Hl by lia. cbn in Hl. inversion Hl as [Hr].
  rewrite !slice_to_in_range by (rewrite ?len_take by lia; lia). cbn.
  rewrite take_take. do 3 f_equal. lia.
Qed.

Lemma left_string_left_string_witness :
  let hello := String.list_byte_of_string "hello" in
  left_string (str (take 3 hello)) (int 2) = left_string (str hello) (int 2).
Proof.
  intros hello.
  apply (left_string_left_string hello (take 3 hello) 3 2);
    [lia|vm_compute; discriminate|reflexivity].
Defined.

(** A negative [n] counts from the end: for [0 <= n < len(s)], [left] with
    [n - len(s)] is [left] with [n]. *)
Theorem left_string_from_end (s : list byte) (n : Z) :
  0 <= n < len s ->
  left_string (str s) (int (n - len s)) = left_string (str s) (int n).
Proof.
  intros Hn. unfold left_string, str, int. cbn.
  destruct (n - len s >=? 0) eqn:E1; [zbool E1; lia|].
  destruct (n >=? 0) eqn:E2; [|zbool E2; lia].
  now replace (len s + (n - len s)) with n by lia.
Qed.

Lemma left_string_from_end_witness :
  let hello := String.list_byte_of_string "hello" in
  left_string (str hello) (int (2 - len hello)) = left_string (str hello) (int 2).
Proof.
  intros hello. apply left_string_from_end. vm_compute. split; [discriminate|reflexivity].
Defined.

(** The conversion to [[]rune] yields as many runes as [RuneCount]
    counts. *)
Lemma length_range_runes (fuel : nat) (p : list byte) :
  (length p <= fuel)%nat -> Z.of_nat (length (range_runes fuel p)) = RuneCount p.
Proof.
  revert p. induction fuel as [|fuel IH]; intros p Hf.
  - destruct p; [reflexivity|simpl in Hf; lia].
  - destruct p as [|c rest]; [reflexivity|].
    pose proof (width_bounds (c :: rest) ltac:(congruence)) as Hw.
    cbn [range_runes length]. rewrite RuneCount_step by congruence.
    rewrite <- IH by (rewrite length_drop; simpl in *; lia). lia.
Qed.

Lemma length_runes (p : list byte) : Z.of_nat (length (runes p)) = RuneCount p.
Proof. unfold runes. now apply length_range_runes. Qed.

(** The [char_length] of a string is its rune count, at most its byte
    length; [nil] gives [nil]. *)
Lemma char_length_varchar_RuneCount (s : list byte) :
  len s <= 2 ^ 31 - 1 ->
  char_length_varchar (AString s) = Return (AInt32 (RuneCount s))
  /\ 0 <= RuneCount s <= len s.
Proof.
  intros Hs. pose proof (RuneCount_bounds s) as Hb. split; [|exact Hb].
  unfold char_length_varchar. rewrite length_runes.
  unfold int32. change (2 ^ 31) with 2147483648 in *.
  change (2 ^ 32) with 4294967296.
  rewrite Z.mod_small by lia. do 2 f_equal. lia.
Qed.

(** What a varchar of length [Length] has converted has a [char_length]
    of at most [Length]: the smaller of [Length] and the [char_length] of
    the input. *)
Theorem char_length_of_converted (b : VarCharType) (val r : list byte) :
  0 <= Length b < 2 ^ 32 -> len val <= 2 ^ 31 - 1 ->
  VarCharType_Convert b (AString val) = Return (AString r, InRange, None) ->
  char_length_varchar (AString r)
  = Return (AInt32 (Z.min (Length b) (RuneCount val)))
  /\ Z.min (Length b) (RuneCount val) <= Length b.
Proof.
  intros HL Hlen Hc. split; [|lia].
  assert (Hlen' : len val < 2 ^ 32)
    by (change (2 ^ 31) with 2147483648 in Hlen;
        change (2 ^ 32) with 4294967296; lia).
  rewrite (Convert_string b HL) in Hc by exact Hlen'.
  inversion Hc as [Hr].
  pose proof (len_first_runes (Z.to_nat (Length b)) val) as Hp.
  destruct (char_length_varchar_RuneCount
              (first_runes (Z.to_nat (Length b)) val) ltac:(lia)) as [-> _].
  rewrite RuneCount_first_runes_min. do 2 f_equal. lia.
Qed.

Lemma char_length_of_converted_witness :
  char_length_varchar (AString [x68; xc3; xa9]) = Return (AInt32 (Z.min 2 3)).
Proof.
  destruct (char_length_of_converted (mkVarCharType 2)
              [x68; xc3; xa9; x6c] [x68; xc3; xa9]) as (H & _);
    [cbn; lia|vm_compute; discriminate|reflexivity|exact H].
Defined.

End FunctionsMoreFacts.

(* --------------------------------------------------------------------- *)
(** ** unicode/utf8: appending, and the rune of a space                   *)
(* --------------------------------------------------------------------- *)

Module Utf8AppendFacts.
Import GoFacts Utf8Facts VarCharFacts.

(** The second byte a leading byte accepts is a continuation byte. *)
Lemma first_accept (p0 sz lo hi : Z) :
  first p0 = Some (sz, (lo, hi)) -> 0x80 <= lo /\ hi <= 0xBF.
Proof.
  unfold first.
  repeat match goal with
         | |- context [if ?c then _ else _] => destruct c
         end; intros H; inversion H; lia.
Qed.

Ltac decode_cases' :=
  repeat match goal with
         | |- context [first ?x] =>
             let Hf := fresh "Hf" in
             destruct (first x) as [[? [? ?]]|] eqn:Hf;
             [pose proof (first_accept _ _ _ _ Hf); apply first_size in Hf|]
         | |- context [if ?c then _ else _] =>
             let Hc := fresh "Hc" in destruct c eqn:Hc
         end.

Ltac orbs :=
  repeat match goal with
         | H : (_ || _) = true |- _ => apply orb_prop in H as [H|H]
         | H : (_ || _) = false |- _ => apply orb_false_elim in H as [? ?]
         end.

(** Bytes appended after the input do not change the width of its first
    rune when they start with an ASCII byte. *)
Lemma width_app (p q : list byte) :
  p <> [] -> starts_ascii q -> width (p ++ q) = width p.
Proof.
  unfold width, starts_ascii.
  destruct p as [|c0 [|c1 [|c2 [|c3 rest]]]]; [congruence| | | |];
    destruct q as [|d q']; intros _ Hq; rewrite ?app_nil_r; try reflexivity;
    cbn [app]; unfold DecodeRune, len, outside; cbn [length];
    decode_cases'; cbn [snd]; orbs; zbools; try reflexivity; try lia.
Qed.

Lemma starts_ascii_replicate (k : nat) (c : byte) :
  byte_to_Z c < 0x80 -> starts_ascii (replicate k c).
Proof. intros Hc. destruct k; [exact I|exact Hc]. Qed.

(** The runes of the input, then the runes of what is appended. *)
Lemma RuneCount_app (p q : list byte) :
  starts_ascii q -> RuneCount (p ++ q) = RuneCount p + RuneCount q.
Proof.
  intros Hq. remember (length p) as m eqn:Hm. revert p Hm.
  induction m as [m IH] using lt_wf_ind. intros p Hm.
  destruct p as [|c rest]; [now rewrite RuneCount_nil|].
  pose proof (width_bounds (c :: rest) ltac:(congruence)) as Hw.
  rewrite (RuneCount_step ((c :: rest) ++ q)) by discriminate.
  rewrite (RuneCount_step (c :: rest)) by discriminate.
  rewrite width_app by (congruence || exact Hq).
  rewrite drop_app_le by lia.
  rewrite (IH (length (drop (width (c :: rest)) (c :: rest)))); [lia| |reflexivity].
  rewrite length_drop. lia.
Qed.

Lemma first_runes_app (n : nat) (p q : list byte) :
  starts_ascii q ->
  first_runes n (p ++ q)
  = first_runes n p ++ first_runes (n - Z.to_nat (RuneCount p)) q.
Proof.
  intros Hq. revert p. induction n as [|n IH]; intros p; [reflexivity|].
  destruct p as [|c rest].
  - rewrite RuneCount_nil. cbn [app first_runes]. now rewrite Nat.sub_0_r.
  - pose proof (width_bounds (c :: rest) ltac:(congruence)) as Hw.
    pose proof (RuneCount_bounds (drop (width (c :: rest)) (c :: rest))) as Hb.
    rewrite (first_runes_step n ((c :: rest) ++ q)) by discriminate.
    rewrite (first_runes_step n (c :: rest)) by discriminate.
    rewrite width_app by (congruence || exact Hq).
    rewrite take_app_le, drop_app_le by lia.
    rewrite IH, <- app_assoc. do 3 f_equal.
    rewrite (RuneCount_step (c :: rest)) by discriminate. lia.
Qed.

(** *** The rune of a space *)

(** The value of a rune of two, three and four bytes, as a sum. *)
Lemma rune2_value (p0 b1 : Z) :
  Z.lor (Z.shiftl (Z.land p0 0x1F) 6) (Z.land b1 0x3F)
  = p0 mod 32 * 64 + b1 mod 64.
Proof.
  change 0x1F with (Z.ones 5). change 0x3F with (Z.ones 6).
  rewrite !Z.land_ones by lia. rewrite Z.lor_comm.
  rewrite lor_shiftl_add by (pose proof (Z.mod_pos_bound b1 (2 ^ 6)); lia).
  change (2 ^ 5) with 32. change (2 ^ 6) with 64. lia.
Qed.

Lemma rune3_value (p0 b1 b2 : Z) :
  Z.lor (Z.lor (Z.shiftl (Z.land p0 0x0F) 12) (Z.shiftl (Z.land b1 0x3F) 6))
        (Z.land b2 0x3F)
  = p0 mod 16 * 4096 + b1 mod 64 * 64 + b2 mod 64.
Proof.
  change 0x0F with (Z.ones 4). change 0x3F with (Z.ones 6).
  rewrite !Z.land_ones by lia.
  change (2 ^ 4) with 16. change (2 ^ 6) with 64.
  pose proof (Z.mod_pos_bound b1 64 eq_refl).
  pose proof (Z.mod_pos_bound b2 64 eq_refl).
  pose proof (Z.mod_pos_bound p0 16 eq_refl).
  rewrite (Z.lor_comm (Z.shiftl (p0 mod 16) 12)).
  rewrite (Z.shiftl_mul_pow2 (b1 mod 64)) by lia.
  rewrite lor_shiftl_add by (change (2 ^ 6) with 64; change (2 ^ 12) with 4096; lia).
  change (2 ^ 6) with 64. change (2 ^ 12) with 4096.
  replace (b1 mod 64 * 64 + p0 mod 16 * 4096)
    with (Z.shiftl (b1 mod 64 + p0 mod 16 * 64) 6)
    by (rewrite Z.shiftl_mul_pow2 by lia; change (2 ^ 6) with 64; lia).
  rewrite Z.lor_comm, lor_shiftl_add by (change (2 ^ 6) with 64; lia).
  change (2 ^ 6) with 64. lia.
Qed.

Lemma rune4_value (p0 b1 b2 b3 : Z) :
  Z.lor (Z.lor (Z.lor (Z.shiftl (Z.land p0 0x07) 18)
                      (Z.shiftl (Z.land b1 0x3F) 12))
               (Z.shiftl (Z.land b2 0x3F) 6))
        (Z.land b3 0x3F)
  = p0 mod 8 * 262144 + b1 mod 64 * 4096 + b2 mod 64 * 64 + b3 mod 64.
Proof.
  change 0x07 with (Z.ones 3). change 0x3F with (Z.ones 6).
  rewrite !Z.land_ones by lia.
  change (2 ^ 3) with 8. change (2 ^ 6) with 64.
  pose proof (Z.mod_pos_bound b1 64 eq_refl).
  pose proof (Z.mod_pos_bound b2 64 eq_refl).
  pose proof (Z.mod_pos_bound b3 64 eq_refl).
  pose proof (Z.mod_pos_bound p0 8 eq_refl).
  rewrite (Z.lor_comm (Z.shiftl (p0 mod 8) 18)).
  rewrite (Z.shiftl_mul_pow2 (b1 mod 64)) by lia.
  rewrite (lor_shiftl_add (b1 mod 64 * 2 ^ 12) (p0 mod 8) 18)
    by (change (2 ^ 12) with 4096; change (2 ^ 18) with 262144; lia).
  change (2 ^ 12) with 4096. change (2 ^ 18) with 262144.
  rewrite (Z.lor_comm (b1 mod 64 * 4096 + p0 mod 8 * 262144)).
  rewrite (Z.shiftl_mul_pow2 (b2 mod 64)) by lia. change (2 ^ 6) with 64.
  replace (b1 mod 64 * 4096 + p0 mod 8 * 262144)
    with (Z.shiftl (b1 mod 64 + p0 mod 8 * 64) 12)
    by (rewrite Z.shiftl_mul_pow2 by lia; change (2 ^ 12) with 4096; lia).
  rewrite lor_shiftl_add by (change (2 ^ 12) with 4096; lia).
  change (2 ^ 12) with 4096.
  replace (b2 mod 64 * 64 + (b1 mod 64 + p0 mod 8 * 64) * 4096)
    with (Z.shiftl (b2 mod 64 + (b1 mod 64 + p0 mod 8 * 64) * 64) 6)
    by (rewrite Z.shiftl_mul_pow2 by lia; change (2 ^ 6) with 64; lia).
  rewrite Z.lor_comm, lor_shiftl_add by (change (2 ^ 6) with 64; lia).
  change (2 ^ 6) with 64. lia.
Qed.

(** The leading bytes of multi-byte sequences and what they accept. *)
Lemma first_cases (p0 sz lo hi : Z) :
  first p0 = Some (sz, (lo, hi)) ->
  (sz = 2 /\ 0xC2 <= p0 <= 0xDF /\ lo = 0x80)
  \/ (sz = 3 /\ p0 = 0xE0 /\ lo = 0xA0)
  \/ (sz = 3 /\ 0xE1 <= p0 <= 0xEF /\ lo = 0x80)
  \/ (sz = 4 /\ p0 = 0xF0 /\ lo = 0x90)
  \/ (sz = 4 /\ 0xF1 <= p0 <= 0xF4 /\ lo = 0x80).
Proof.
  unfold first.
  repeat match goal with
         | |- context [if ?c then _ else _] =>
             let Hc := fresh "Hc" in destruct c eqn:Hc
         end; intros H; inversion H; subst;
    repeat match goal with
           | H : (_ && _) = true |- _ => apply andb_prop in H as [? ?]
           end; zbools; lia.
Qed.

Lemma first_hi (p0 sz lo hi : Z) :
  first p0 = Some (sz, (lo, hi)) -> hi <= 0xBF.
Proof.
  unfold first.
  repeat match goal with
         | |- context [if ?c then _ else _] =>
             let Hc := fresh "Hc" in destruct c eqn:Hc
         end; intros H; inversion H; subst; lia.
Qed.

(** A rune of more than one byte is not an ASCII character. *)
Lemma DecodeRune_multibyte (p : list byte) :
  2 <= (DecodeRune p).2 -> 0x80 <= (DecodeRune p).1.
Proof.
  destruct p as [|c0 [|c1 [|c2 [|c3 rest]]]]; unfold DecodeRune, len, outside;
    cbn [length];
    repeat match goal with
           | |- context [first ?x] =>
               let Hf := fresh "Hf" in
               let Hh := fresh "Hh" in
               destruct (first x) as [[? [? ?]]|] eqn:Hf;
               [pose proof (first_hi _ _ _ _ Hf) as Hh; apply first_cases in Hf|]
           | |- context [if ?c then _ else _] =>
               let Hc := fresh "Hc" in destruct c eqn:Hc
           end; cbn [fst snd]; try lia; intros _;
    rewrite ?rune2_value, ?rune3_value, ?rune4_value;
    orbs; zbools;
    repeat match goal with
           | |- context [byte_to_Z ?c] =>
               lazymatch goal with
               | _ : 0 <= byte_to_Z c < 256 |- _ => fail
               | _ => pose proof (byte_to_Z_range c)
               end
           end;
    try lia;
    destruct Hf as [Hf|[Hf|[Hf|[Hf|Hf]]]]; destruct Hf as (? & ? & ?); subst;
    try lia;
    repeat match goal with
           | |- context [?a mod ?m] =>
               let r := fresh "r" in
               let Hr := fresh "Hr" in
               pose proof (Z.div_mod a m ltac:(lia));
               pose proof (Z.mod_pos_bound a m eq_refl);
               remember (a mod m) as r eqn:Hr; clear Hr
           end;
    lia.
Qed.

(** The first rune is a space exactly when the first byte is. *)
Lemma DecodeRune_space (c : byte) (rest : list byte) :
  ((DecodeRune (c :: rest)).1 =? 32) = (byte_to_Z c =? 32).
Proof.
  destruct (Z_le_gt_dec 2 (DecodeRune (c :: rest)).2) as [Hw|Hw].
  - pose proof (DecodeRune_multibyte _ Hw) as Hr.
    assert (Hc : 0x80 <= byte_to_Z c).
    { revert Hw. unfold DecodeRune.
      destruct (first (byte_to_Z c)) as [[? [? ?]]|] eqn:Hf.
      - intros _. apply first_lead in Hf. lia.
      - cbn. lia. }
    destruct ((DecodeRune (c :: rest)).1 =? 32) eqn:E1; zbool E1;
      destruct (byte_to_Z c =? 32) eqn:E2; zbool E2; try reflexivity; lia.
  - revert Hw. unfold DecodeRune.
    destruct (first (byte_to_Z c)) as [[sz [lo hi]]|] eqn:Hf.
    + apply first_lead in Hf.
      assert ((byte_to_Z c =? 32) = false) as -> by (apply Z.eqb_neq; lia).
      destruct rest as [|c1 [|c2 [|c3 rest]]];
        repeat match goal with
               | |- context [if ?b then _ else _] => destruct b
               end; cbn [fst snd]; intros Hw; try lia; reflexivity.
    + cbn [fst snd]. intros _.
      destruct (byte_to_Z c <? 0x80) eqn:E; [reflexivity|]. zbool E.
      change (RuneError =? 32) with false. symmetry. apply Z.eqb_neq. lia.
Qed.

Lemma width_space (c : byte) (rest : list byte) :
  byte_to_Z c = 32 -> width (c :: rest) = 1%nat.
Proof. intros H. apply width_ascii. lia. Qed.

End Utf8AppendFacts.

(* --------------------------------------------------------------------- *)
(** ** server/types: char                                                 *)
(* --------------------------------------------------------------------- *)

Module CharFacts.
Import Types Char GoFacts Utf8Facts VarCharFacts VarCharMethodsFacts.
Import OrderFacts Utf8AppendFacts.

(** *** Spaces *)

Abbreviation spaces k := (replicate k x20).

Lemma Repeat_space (count : Z) :
  0 <= count -> Repeat [x20] count = Return (spaces (Z.to_nat count)).
Proof.
  intros Hc. unfold Repeat.
  destruct (count <? 0) eqn:E; [zbool E; lia|]. f_equal.
  induction (Z.to_nat count) as [|k IH]; [reflexivity|].
  cbn [replicate mjoin list_join app]. now rewrite <- IH.
Qed.

Lemma all_spaces_bytes_spaces (k : nat) : all_spaces_bytes (spaces k) = true.
Proof. induction k as [|k IH]; [reflexivity|exact IH]. Qed.

Lemma all_spaces_bytes_app (p q : list byte) :
  all_spaces_bytes (p ++ q) = all_spaces_bytes p && all_spaces_bytes q.
Proof. apply forallb_app. Qed.

(** Only spaces pass the test of the byte loop. *)
Lemma all_spaces_bytes_eq (p : list byte) :
  all_spaces_bytes p = true <-> p = spaces (length p).
Proof.
  induction p as [|c rest IH]; [now split|].
  cbn [all_spaces_bytes forallb length replicate]. fold (all_spaces_bytes rest).
  rewrite andb_true_iff, IH. split.
  - intros [Hc Hr]. zbool Hc.
    assert (c = x20) as -> by (apply byte_to_Z_inj; rewrite Hc; reflexivity).
    now rewrite <- Hr.
  - intros H. inversion H as [[Hc Hr]]. rewrite <- Hr. now split.
Qed.

Lemma range_runes_fuel (f1 f2 : nat) (p : list byte) :
  (length p <= f1)%nat -> (length p <= f2)%nat ->
  range_runes f1 p = range_runes f2 p.
Proof.
  revert f2 p. induction f1 as [|f1 IH]; intros f2 p H1 H2.
  - destruct p; [now destruct f2|simpl in H1; lia].
  - destruct p as [|c rest]; [now destruct f2|].
    destruct f2 as [|f2]; [simpl in H2; lia|].
    pose proof (width_bounds (c :: rest) ltac:(congruence)) as Hw.
    cbn [range_runes]. f_equal.
    apply IH; rewrite length_drop; simpl in *; lia.
Qed.

Lemma runes_step (p : list byte) :
  p <> [] -> runes p = (DecodeRune p).1 :: runes (drop (width p) p).
Proof.
  destruct p as [|c rest]; [congruence|intros _].
  pose proof (width_bounds (c :: rest) ltac:(congruence)) as Hw.
  unfold runes. cbn [length range_runes]. f_equal.
  apply range_runes_fuel; rewrite ?length_drop; simpl in *; lia.
Qed.

(** The rune loop and the byte loop of [Convert] accept the same rests:
    a rune is a space exactly when its first byte is, and a space is one
    byte wide. *)
Lemma all_spaces_runes_bytes (p : list byte) :
  all_spaces_runes p = all_spaces_bytes p.
Proof.
  induction p as [|c rest IH]; [reflexivity|].
  unfold all_spaces_runes in *. rewrite runes_step by congruence.
  cbn [forallb all_spaces_bytes]. fold (all_spaces_bytes rest).
  rewrite DecodeRune_space.
  destruct (byte_to_Z c =? 32) eqn:E; [|reflexivity]. zbool E.
  rewrite width_space by exact E. cbn [drop andb]. exact IH.
Qed.

Lemma first_runes_spaces (m k : nat) :
  first_runes m (spaces k) = spaces (Nat.min m k).
Proof.
  revert k. induction m as [|m IH]; intros k; [reflexivity|].
  destruct k as [|k]; [reflexivity|].
  change (spaces (S k)) with (x20 :: spaces k).
  rewrite first_runes_step by congruence.
  rewrite width_space by reflexivity.
  change (take 1 (x20 :: spaces k)) with [x20].
  change (drop 1 (x20 :: spaces k)) with (spaces k).
  rewrite IH. reflexivity.
Qed.

Lemma RuneCount_spaces (k : nat) : RuneCount (spaces k) = Z.of_nat k.
Proof. now apply RuneCount_replicate_ascii. Qed.

Lemma starts_ascii_spaces (k : nat) : starts_ascii (spaces k).
Proof. now apply starts_ascii_replicate. Qed.

(** The truncation loop stops right after the first [n] runes. *)
Lemma truncate_loop_first_runes (n : nat) (val : list byte) :
  Z.of_nat n <= RuneCount val ->
  truncate_loop n val = Return (drop (length (first_runes n val)) val)
  /\ take (length (first_runes n val)) val = first_runes n val
  /\ (length (first_runes n val) <= length val)%nat.
Proof.
  intros Hn.
  destruct (truncate_loop_spec n val Hn) as (k & Hk & Hloop & Htake & _).
  rewrite <- Htake, length_take, Nat.min_l by lia. now split.
Qed.

(** *** Convert *)

Section Char.

Variable stringUnbounded : Z.
Variable Text_Convert : any -> outcome converted.
Variable b : CharType.
Hypothesis bounded : CharType_Length b <> stringUnbounded.
Hypothesis Length_uint32 : 0 <= CharType_Length b < 2 ^ 32.

Abbreviation chars := (Z.to_nat (CharType_Length b)).
Abbreviation Convert := (CharType_Convert stringUnbounded Text_Convert b).
Abbreviation too_long :=
  (ANil, OutOfRange,
   Some (Errorf "value too long for type %s" [CharType_String b])).

(** What [Convert] makes of a string of fewer than 2^32 runes: a string
    of more than [Length] runes is cut after its first [Length] runes when
    only spaces follow them and is refused otherwise; any other string is
    filled up with spaces to [Length] runes. *)
Lemma Char_Convert_string (val : list byte) :
  RuneCount val < 2 ^ 32 ->
  Convert (AString val)
  = if CharType_Length b <? RuneCount val then
      if all_spaces_bytes (drop (length (first_runes chars val)) val)
      then Return (AString (first_runes chars val), InRange, None)
      else Return too_long
    else Return (AString (val ++ spaces (Z.to_nat (CharType_Length b - RuneCount val))),
                 InRange, None).
Proof.
  intros Hrc. pose proof (RuneCount_bounds val) as Hb.
  unfold CharType_Convert.
  destruct (CharType_Length b =? stringUnbounded) eqn:E; [zbool E; contradiction|].
  clear E. unfold uint32. rewrite (Z.mod_small (RuneCount val)) by lia.
  rewrite Z.gtb_ltb.
  destruct (CharType_Length b <? RuneCount val) eqn:E1; zbool E1.
  - destruct (truncate_loop_first_runes chars val ltac:(lia)) as (Hloop & Htake & Hk).
    rewrite Hloop. cbn [mbind outcome_bind]. rewrite all_spaces_runes_bytes.
    destruct (all_spaces_bytes _); [|reflexivity].
    rewrite slice_to_in_range by (unfold len; rewrite length_drop; lia).
    cbn [mbind outcome_bind].
    replace (Z.to_nat (len val - len (drop (length (first_runes chars val)) val)))
      with (length (first_runes chars val))
      by (unfold len; rewrite length_drop; lia).
    now rewrite Htake.
  - destruct (RuneCount val <? CharType_Length b) eqn:E2; zbool E2.
    + rewrite Z.mod_small by lia. rewrite Repeat_space by lia. reflexivity.
    + replace (CharType_Length b - RuneCount val) with 0 by lia.
      now rewrite app_nil_r.
Qed.

Lemma Char_Convert_RuneCount (val r : list byte) (rng : ConvertInRange)
    (e : option error) :
  RuneCount val < 2 ^ 32 ->
  Convert (AString val) = Return (AString r, rng, e) ->
  RuneCount r = CharType_Length b /\ rng = InRange /\ e = None.
Proof.
  intros Hrc Hc. pose proof (RuneCount_bounds val) as Hb.
  rewrite Char_Convert_string in Hc by exact Hrc.
  destruct (CharType_Length b <? RuneCount val) eqn:E1; zbool E1.
  - destruct (all_spaces_bytes _); [|discriminate].
    inversion Hc; subst. rewrite RuneCount_first_runes_min.
    repeat split. lia.
  - inversion Hc; subst.
    rewrite RuneCount_app, RuneCount_spaces by apply starts_ascii_spaces.
    repeat split. lia.
Qed.

Lemma Char_Convert_bytes (val : list byte) :
  Convert (ABytes val) = Convert (AString val).
Proof.
  unfold CharType_Convert.
  destruct (CharType_Length b =? stringUnbounded) eqn:E; [zbool E; contradiction|].
  destruct (uint32 (RuneCount val) >? CharType_Length b); [|reflexivity].
  destruct (truncate_loop chars val) as [v|p]; cbn [mbind outcome_bind];
    [|reflexivity].
  now rewrite all_spaces_runes_bytes.
Qed.

(** A [[]byte] is converted as the string of the same bytes is: the test
    of the rest byte by byte accepts what the test rune by rune accepts.
    So it is serialised and formatted as that string is. *)
Theorem Char_Convert_bytes_as_string (val : list byte) :
  CharType_Convert stringUnbounded Text_Convert b (ABytes val)
  = CharType_Convert stringUnbounded Text_Convert b (AString val)
  /\ CharType_SerializeValue stringUnbounded Text_Convert b (ABytes val)
     = CharType_SerializeValue stringUnbounded Text_Convert b (AString val)
  /\ CharType_FormatValue stringUnbounded Text_Convert b (ABytes val)
     = CharType_FormatValue stringUnbounded Text_Convert b (AString val).
Proof.
  unfold CharType_SerializeValue, CharType_FormatValue.
  rewrite Char_Convert_bytes. repeat split.
Qed.

(** Whatever string [Convert] returns, for a string or a [[]byte], has
    exactly [Length] characters, and comes in range and without an error. *)
Theorem Char_Convert_exact_length (val r : list byte) (rng : ConvertInRange)
    (e : option error) :
  RuneCount val < 2 ^ 32 ->
  CharType_Convert stringUnbounded Text_Convert b (AString val)
    = Return (AString r, rng, e)
  \/ CharType_Convert stringUnbounded Text_Convert b (ABytes val)
    = Return (AString r, rng, e) ->
  RuneCount r = CharType_Length b /\ rng = InRange /\ e = None.
Proof.
  intros Hrc [Hc|Hc]; [|rewrite Char_Convert_bytes in Hc];
    now apply (Char_Convert_RuneCount val).
Qed.

(** [Convert] refuses a string exactly when it has more than [Length]
    characters and is not its first [Length] characters followed by
    spaces alone; it then reports the type by its name. *)
Theorem Char_Convert_too_long (val : list byte) :
  RuneCount val < 2 ^ 32 ->
  CharType_Convert stringUnbounded Text_Convert b (AString val) = Return too_long
  <-> (CharType_Length b < RuneCount val
       /\ forall k, val <> first_runes chars val ++ spaces k).
Proof.
  intros Hrc. pose proof (RuneCount_bounds val) as Hb.
  rewrite Char_Convert_string by exact Hrc.
  destruct (CharType_Length b <? RuneCount val) eqn:E1; zbool E1;
    [|split; [discriminate|intros [H _]; lia]].
  destruct (truncate_loop_first_runes chars val ltac:(lia)) as (_ & Htake & Hk).
  remember (first_runes chars val) as fr eqn:Hfr. clear Hfr.
  destruct (all_spaces_bytes (drop (length fr) val)) eqn:A.
  - split; [discriminate|]. intros [_ Hno]. exfalso.
    apply all_spaces_bytes_eq in A.
    apply (Hno (length (drop (length fr) val))).
    rewrite <- A.
    transitivity (take (length fr) val ++ drop (length fr) val);
      [symmetry; apply take_drop|now rewrite Htake].
  - split; [|reflexivity]. intros _. split; [lia|].
    intros k Hval. rewrite Hval, drop_app_length, all_spaces_bytes_spaces in A.
    discriminate.
Qed.

Lemma Char_Convert_spaces (val : list byte) (k : nat) :
  RuneCount val + Z.of_nat k < 2 ^ 32 ->
  Convert (AString (val ++ spaces k)) = Convert (AString val).
Proof.
  intros Hrc. pose proof (RuneCount_bounds val) as Hb.
  assert (Hrc' : RuneCount (val ++ spaces k) = RuneCount val + Z.of_nat k)
    by (rewrite RuneCount_app, RuneCount_spaces by apply starts_ascii_spaces;
        reflexivity).
  rewrite !Char_Convert_string by lia. rewrite Hrc'.
  rewrite first_runes_app by apply starts_ascii_spaces.
  rewrite first_runes_spaces.
  destruct (CharType_Length b <? RuneCount val) eqn:E1; zbool E1.
  - assert ((CharType_Length b <? RuneCount val + Z.of_nat k) = true) as ->
      by (apply Z.ltb_lt; lia).
    destruct (truncate_loop_first_runes chars val ltac:(lia)) as (_ & _ & Hk).
    replace (Nat.min (chars - Z.to_nat (RuneCount val)) k) with 0%nat by lia.
    cbn [replicate]. rewrite app_nil_r.
    rewrite drop_app_le by exact Hk.
    rewrite all_spaces_bytes_app, all_spaces_bytes_spaces, andb_true_r.
    reflexivity.
  - rewrite (first_runes_all chars val) by lia.
    destruct (CharType_Length b <? RuneCount val + Z.of_nat k) eqn:E2; zbool E2.
    + rewrite length_app, length_replicate, drop_app_ge, drop_replicate by lia.
      rewrite all_spaces_bytes_spaces.
      replace (Nat.min (chars - Z.to_nat (RuneCount val)) k)
        with (Z.to_nat (CharType_Length b - RuneCount val)) by lia.
      reflexivity.
    + rewrite <- app_assoc, <- replicate_add.
      replace (k + Z.to_nat (CharType_Length b - (RuneCount val + Z.of_nat k)))%nat
        with (Z.to_nat (CharType_Length b - RuneCount val)) by lia.
      reflexivity.
Qed.

(** Spaces at the end of a string or of a [[]byte] do not matter to
    [Convert]: it returns the same string, or the same error, with and
    without them. *)
Theorem Char_Convert_trailing_spaces (val : list byte) (k : nat) :
  RuneCount val + Z.of_nat k < 2 ^ 32 ->
  CharType_Convert stringUnbounded Text_Convert b (AString (val ++ spaces k))
  = CharType_Convert stringUnbounded Text_Convert b (AString val)
  /\ CharType_Convert stringUnbounded Text_Convert b (ABytes (val ++ spaces k))
     = CharType_Convert stringUnbounded Text_Convert b (ABytes val).
Proof.
  intros Hrc. rewrite !Char_Convert_bytes.
  split; now apply Char_Convert_spaces.
Qed.

Lemma Char_Convert_fixed (r : list byte) :
  RuneCount r = CharType_Length b ->
  Convert (AString r) = Return (AString r, InRange, None).
Proof.
  intros Hr. rewrite Char_Convert_string by lia. rewrite Hr.
  rewrite Z.ltb_irrefl, Z.sub_diag. cbn [Z.to_nat replicate].
  now rewrite app_nil_r.
Qed.

(** Converting a converted value changes nothing. *)
Theorem Char_Convert_idempotent (val r : list byte) :
  RuneCount val < 2 ^ 32 ->
  CharType_Convert stringUnbounded Text_Convert b (AString val)
  = Return (AString r, InRange, None) ->
  CharType_Convert stringUnbounded Text_Convert b (AString r)
  = Return (AString r, InRange, None).
Proof.
  intros Hrc Hc. apply Char_Convert_fixed.
  now destruct (Char_Convert_RuneCount val r _ _ Hrc Hc).
Qed.

(** A converted value fits the byte length the type announces for its
    text, four bytes for each of its [Length] characters, as long as that
    product fits a [uint32]. *)
Theorem Char_Convert_within_MaxTextResponseByteLength (val r : list byte) :
  CharType_Length b < 2 ^ 30 ->
  RuneCount val < 2 ^ 32 ->
  CharType_Convert stringUnbounded Text_Convert b (AString val)
  = Return (AString r, InRange, None) ->
  len r <= CharType_MaxTextResponseByteLength stringUnbounded b.
Proof.
  intros Hmax Hrc Hc.
  destruct (Char_Convert_RuneCount val r _ _ Hrc Hc) as (Hr & _).
  unfold CharType_MaxTextResponseByteLength.
  destruct (CharType_Length b =? stringUnbounded) eqn:E; [zbool E; contradiction|].
  unfold uint32. change (2 ^ 30) with 1073741824 in Hmax.
  rewrite Z.mod_small by (change (2 ^ 32) with 4294967296; lia).
  pose proof (len_RuneCount r). lia.
Qed.

Lemma Char_SerializeValue_inv (val r : list byte) :
  RuneCount val < 2 ^ 32 ->
  CharType_SerializeValue stringUnbounded Text_Convert b (AString val)
  = Return (Some r, None) ->
  Convert (AString val) = Return (AString r, InRange, None).
Proof.
  intros Hrc. unfold CharType_SerializeValue.
  rewrite Char_Convert_string by exact Hrc.
  destruct (CharType_Length b <? RuneCount val);
    [destruct (all_spaces_bytes _)|]; cbn [mbind outcome_bind];
    intros H; inversion H; reflexivity.
Qed.

(** Under a length of at least 1, what [SerializeValue] makes of a string
    is never empty, so [DeserializeValue] gives it back as a string, and
    serialising that string again gives the same bytes. *)
Theorem Char_Serialize_Deserialize (val r : list byte) :
  0 < CharType_Length b ->
  RuneCount val < 2 ^ 32 ->
  CharType_SerializeValue stringUnbounded Text_Convert b (AString val)
  = Return (Some r, None) ->
  CharType_DeserializeValue r = (AString r, None)
  /\ CharType_SerializeValue stringUnbounded Text_Convert b (AString r)
     = Return (Some r, None).
Proof.
  intros Hpos Hrc Hs. apply Char_SerializeValue_inv in Hs; [|exact Hrc].
  destruct (Char_Convert_RuneCount val r _ _ Hrc Hs) as (Hr & _).
  split.
  - unfold CharType_DeserializeValue, len.
    destruct r; [rewrite RuneCount_nil in Hr; lia|reflexivity].
  - unfold CharType_SerializeValue. now rewrite Char_Convert_fixed.
Qed.

(** [Compare] does not see the spaces at the end of a string, on either
    side; a string that fits the type compares equal to itself with spaces
    added. *)
Theorem Char_Compare_trailing_spaces (s : list byte) (k : nat) (v : any) :
  RuneCount s + Z.of_nat k < 2 ^ 32 ->
  CharType_Compare stringUnbounded Text_Convert b (AString (s ++ spaces k)) v
  = CharType_Compare stringUnbounded Text_Convert b (AString s) v
  /\ CharType_Compare stringUnbounded Text_Convert b v (AString (s ++ spaces k))
     = CharType_Compare stringUnbounded Text_Convert b v (AString s)
  /\ (RuneCount s <= CharType_Length b ->
      CharType_Compare stringUnbounded Text_Convert b
        (AString (s ++ spaces k)) (AString s) = Return (0, None)).
Proof.
  intros Hrc. pose proof (RuneCount_bounds s) as Hb.
  unfold CharType_Compare. rewrite !Char_Convert_spaces by exact Hrc.
  split; [now destruct v|]. split; [now destruct v|].
  intros Hfit. rewrite Char_Convert_string by lia.
  destruct (CharType_Length b <? RuneCount s) eqn:E; zbool E; [lia|].
  cbn [mbind outcome_bind].
  now destruct (decide _).
Qed.

End Char.

(** *** The serialised type *)

Section CharSerializeType.

Variable serializationIDHeaderSize : Z.
Variable SerializationID_Char_bytes : list byte.
Hypothesis header_nonneg : 0 <= serializationIDHeaderSize.

Lemma LittleEndian_Uint32_le32 (v : Z) (rest : list byte) :
  0 <= v < 2 ^ 32 -> LittleEndian_Uint32 (le32 v ++ rest) = Return v.
Proof.
  intros Hv. rewrite <- (Uint32_PutUint32 v Hv). reflexivity.
Qed.

Lemma length_copy (dst src : list byte) : length (copy dst src) = length dst.
Proof. unfold copy. rewrite length_app, length_take, length_drop. lia. Qed.

(** [SerializeType] returns the header and four more bytes, and
    [deserializeType] reads from these four, whatever type it is called on,
    the type that was serialised. *)
Theorem Char_SerializeType_deserializeType (b b' : CharType) :
  0 <= CharType_Length b < 2 ^ 32 ->
  exists t,
    CharType_SerializeType serializationIDHeaderSize SerializationID_Char_bytes b
    = Return (t, None)
    /\ len t = serializationIDHeaderSize + 4
    /\ (metadata ← slice_from t serializationIDHeaderSize;
        CharType_deserializeType b' 0 metadata)
       = Return (Some b, None).
Proof.
  intros HL. unfold CharType_SerializeType.
  set (h := Z.to_nat serializationIDHeaderSize).
  set (t0 := copy (replicate (Z.to_nat (serializationIDHeaderSize + 4)) x00)
                  SerializationID_Char_bytes).
  assert (Hlen : length t0 = (h + 4)%nat)
    by (unfold t0, h; rewrite length_copy, length_replicate; lia).
  rewrite slice_from_in_range by (unfold len; lia).
  cbn [mbind outcome_bind]. fold h.
  unfold LittleEndian_PutUint32.
  assert (Hd : len (drop h t0) = 4) by (unfold len; rewrite length_drop; lia).
  rewrite Hd. cbn [Z.ltb Z.compare Pos.compare Pos.compare_cont].
  cbn [mbind outcome_bind].
  eexists. split; [reflexivity|].
  assert (Hlen' : length (take h t0 ++ le32 (CharType_Length b) ++ drop 4 (drop h t0))
                  = (h + 4)%nat).
  { rewrite !length_app, length_take, !length_drop. cbn [le32 length]. lia. }
  split; [unfold len; rewrite Hlen'; lia|].
  rewrite slice_from_in_range by (unfold len; rewrite Hlen'; lia).
  cbn [mbind outcome_bind]. fold h.
  rewrite drop_app_length' by (rewrite length_take; lia).
  unfold CharType_deserializeType. cbn [Z.eqb].
  rewrite LittleEndian_Uint32_le32 by exact HL.
  cbn [mbind outcome_bind]. now destruct b.
Qed.

End CharSerializeType.

(** *** Instances: [character(3)], with the largest [uint32] standing for
    "unbounded" and a conversion of [Text] that is never reached *)

Abbreviation unbounded := 4294967295.
Abbreviation Text_keep := (fun v : any => Return (v, InRange, @None error)).
Abbreviation char3 := (mkCharType 3).

Lemma Char_Convert_bytes_as_string_witness :
  CharType_Convert unbounded Text_keep char3 (ABytes [x61; x20; x20; x20; x20])
  = CharType_Convert unbounded Text_keep char3 (AString [x61; x20; x20; x20; x20]).
Proof.
  destruct (Char_Convert_bytes_as_string unbounded Text_keep char3
              ltac:(cbn; lia) [x61; x20; x20; x20; x20]) as (H & _).
  exact H.
Defined.

Lemma Char_Convert_exact_length_witness :
  RuneCount [xc3; xa9; x20; x20] = CharType_Length char3
  /\ InRange = InRange /\ @None error = None.
Proof.
  apply (Char_Convert_exact_length unbounded Text_keep char3
           ltac:(cbn; lia) ltac:(cbn; lia) [xc3; xa9]);
    [vm_compute; reflexivity|left; reflexivity].
Defined.

Lemma Char_Convert_too_long_witness :
  CharType_Convert unbounded Text_keep char3 (AString [x61; x62; x63; x64])
  = Return (ANil, OutOfRange,
            Some (Errorf "value too long for type %s" [CharType_String char3]))
  <-> (CharType_Length char3 < RuneCount [x61; x62; x63; x64]
       /\ forall k, [x61; x62; x63; x64]
                    <> first_runes (Z.to_nat (CharType_Length char3))
                         [x61; x62; x63; x64] ++ replicate k x20).
Proof.
  apply (Char_Convert_too_long unbounded Text_keep char3
           ltac:(cbn; lia) ltac:(cbn; lia) [x61; x62; x63; x64]).
  vm_compute; reflexivity.
Defined.

Lemma Char_Convert_trailing_spaces_witness :
  CharType_Convert unbounded Text_keep char3 (AString ([x61; x62] ++ replicate 4 x20))
  = CharType_Convert unbounded Text_keep char3 (AString [x61; x62])
  /\ CharType_Convert unbounded Text_keep char3 (ABytes ([x61; x62] ++ replicate 4 x20))
     = CharType_Convert unbounded Text_keep char3 (ABytes [x61; x62]).
Proof.
  apply (Char_Convert_trailing_spaces unbounded Text_keep char3
           ltac:(cbn; lia) ltac:(cbn; lia) [x61; x62] 4).
  vm_compute; reflexivity.
Defined.

Lemma Char_Convert_idempotent_witness :
  CharType_Convert unbounded Text_keep char3 (AString [x61; x20; x20])
  = Return (AString [x61; x20; x20], InRange, None).
Proof.
  apply (Char_Convert_idempotent unbounded Text_keep char3
           ltac:(cbn; lia) ltac:(cbn; lia) [x61] [x61; x20; x20]);
    [vm_compute; reflexivity|reflexivity].
Defined.

Lemma Char_Convert_within_MaxTextResponseByteLength_witness :
  len [xc3; xa9; x20; x20] <= CharType_MaxTextResponseByteLength unbounded char3.
Proof.
  apply (Char_Convert_within_MaxTextResponseByteLength unbounded Text_keep char3
           ltac:(cbn; lia) ltac:(cbn; lia) [xc3; xa9] [xc3; xa9; x20; x20]);
    [vm_compute; reflexivity|vm_compute; reflexivity|reflexivity].
Defined.

Lemma Char_Serialize_Deserialize_witness :
  CharType_DeserializeValue [x61; x20; x20] = (AString [x61; x20; x20], None)
  /\ CharType_SerializeValue unbounded Text_keep char3 (AString [x61; x20; x20])
     = Return (Some [x61; x20; x20], None).
Proof.
  apply (Char_Serialize_Deserialize unbounded Text_keep char3
           ltac:(cbn; lia) ltac:(cbn; lia) [x61] [x61; x20; x20]);
    [cbn; lia|vm_compute; reflexivity|reflexivity].
Defined.

Lemma Char_Compare_trailing_spaces_witness :
  CharType_Compare unbounded Text_keep char3
    (AString ([x61] ++ replicate 5 x20)) (AString [x61])
  = Return (0, None).
Proof.
  destruct (Char_Compare_trailing_spaces unbounded Text_keep char3
              ltac:(cbn; lia) ltac:(cbn; lia) [x61] 5 ANil
              ltac:(vm_compute; reflexivity)) as (_ & _ & H).
  apply H. vm_compute. discriminate.
Defined.

Lemma Char_SerializeType_deserializeType_witness :
  exists t,
    CharType_SerializeType 2 [x0b; x00] char3 = Return (t, None)
    /\ len t = 2 + 4
    /\ (metadata ← slice_from t 2; CharType_deserializeType (mkCharType 0) 0 metadata)
       = Return (Some char3, None).
Proof.
  apply (Char_SerializeType_deserializeType 2 [x0b; x00] ltac:(lia) char3
           (mkCharType 0)).
  cbn; lia.
Defined.

End CharFacts.

(* --------------------------------------------------------------------- *)
(** ** strconv.FormatInt, and the text of an xid and of an oid             *)
(* --------------------------------------------------------------------- *)

Module FormatFacts.
Import Types Cast GoFacts.

Lemma byte_to_Z_digit (d : Z) :
  0 <= d < 10 -> byte_to_Z (byte_of_Z (48 + d)) = 48 + d.
Proof. intros Hd. rewrite byte_to_of_Z. apply Z.mod_small. lia. Qed.

(** The loop of [FormatInt] puts the digits of [n] before [acc], as long as
    [fuel] covers them. *)
Lemma digits_value (fuel : nat) (n : Z) (acc : list byte) :
  0 <= n < 10 ^ Z.of_nat fuel ->
  decimal_value (digits fuel n acc) = n * 10 ^ len acc + decimal_value acc.
Proof.
  revert n acc. induction fuel as [|fuel IH]; intros n acc Hn.
  - change (10 ^ Z.of_nat 0) with 1 in Hn. assert (n = 0) as -> by lia.
    cbn [digits]. lia.
  - cbn [digits].
    pose proof (Z.mod_pos_bound n 10 ltac:(lia)) as Hm.
    pose proof (Z.div_mod n 10 ltac:(lia)) as Hd.
    pose proof (len_nonneg acc) as Hl.
    destruct (n <? 10) eqn:E; zbool E.
    + cbn [decimal_value]. rewrite byte_to_Z_digit by lia.
      rewrite Z.mod_small by lia. lia.
    + rewrite IH.
      * cbn [decimal_value]. rewrite byte_to_Z_digit by lia.
        replace (len (byte_of_Z (48 + n mod 10) :: acc)) with (len acc + 1)
          by (unfold len; cbn [length]; lia).
        rewrite Z.pow_add_r, Z.pow_1_r by lia. nia.
      * split; [apply Z.div_pos; lia|].
        apply Z.div_lt_upper_bound; [lia|].
        rewrite Nat2Z.inj_succ, Z.pow_succ_r in Hn by lia. lia.
Qed.

Lemma digits_are_digits (fuel : nat) (n : Z) (acc : list byte) :
  forallb is_digit acc = true -> forallb is_digit (digits fuel n acc) = true.
Proof.
  revert n acc. induction fuel as [|fuel IH]; intros n acc Hacc; [exact Hacc|].
  cbn [digits].
  pose proof (Z.mod_pos_bound n 10 ltac:(lia)) as Hm.
  assert (Hacc' : forallb is_digit (byte_of_Z (48 + n mod 10) :: acc) = true).
  { cbn [forallb]. rewrite Hacc, andb_true_r. unfold is_digit.
    rewrite byte_to_Z_digit by lia.
    apply andb_true_intro. split; [apply Z.leb_le|apply Z.leb_le]; lia. }
  destruct (n <? 10); [exact Hacc'|now apply IH].
Qed.

Lemma digits_length_lower (fuel : nat) (n : Z) (acc : list byte) :
  (length acc <= length (digits fuel n acc))%nat.
Proof.
  revert n acc. induction fuel as [|fuel IH]; intros n acc; [cbn; lia|].
  cbn [digits]. destruct (n <? 10); [cbn [length]; lia|].
  etransitivity; [|apply IH]. cbn [length]. lia.
Qed.

Lemma digits_length_pos (fuel : nat) (n : Z) (acc : list byte) :
  (1 <= fuel)%nat -> (length acc + 1 <= length (digits fuel n acc))%nat.
Proof.
  destruct fuel as [|fuel]; [lia|intros _]. cbn [digits].
  destruct (n <? 10); [cbn [length]; lia|].
  pose proof (digits_length_lower fuel (n / 10) (byte_of_Z (48 + n mod 10) :: acc)) as H.
  cbn [length] in H. lia.
Qed.

(** The number of digits: [n] is below [10^k] exactly when the loop adds at
    most [k] digits. *)
Lemma digits_length (fuel : nat) (n : Z) (acc : list byte) (k : nat) :
  0 <= n < 10 ^ Z.of_nat fuel -> (1 <= k)%nat ->
  n < 10 ^ Z.of_nat k <-> (length (digits fuel n acc) <= k + length acc)%nat.
Proof.
  revert n acc k. induction fuel as [|fuel IH]; intros n acc k Hn Hk.
  - change (10 ^ Z.of_nat 0) with 1 in Hn. cbn [digits].
    split; [lia|intros _].
    assert (0 < 10 ^ Z.of_nat k) by (apply Z.pow_pos_nonneg; lia). lia.
  - cbn [digits]. destruct (n <? 10) eqn:E; zbool E.
    + cbn [length]. split; [lia|intros _].
      destruct k as [|k]; [lia|].
      rewrite Nat2Z.inj_succ, Z.pow_succ_r by lia.
      assert (0 < 10 ^ Z.of_nat k) by (apply Z.pow_pos_nonneg; lia). lia.
    + assert (Hq : 0 <= n / 10 < 10 ^ Z.of_nat fuel).
      { split; [apply Z.div_pos; lia|].
        apply Z.div_lt_upper_bound; [lia|].
        rewrite Nat2Z.inj_succ, Z.pow_succ_r in Hn by lia. lia. }
      pose proof (Z.div_mod n 10 ltac:(lia)) as Hd.
      pose proof (Z.mod_pos_bound n 10 ltac:(lia)) as Hm.
      destruct k as [|[|k]]; [lia| |].
      * change (10 ^ Z.of_nat 1) with 10. split; [lia|intros Hlen].
        destruct fuel as [|fuel].
        { change (10 ^ Z.of_nat 0) with 1 in Hq. lia. }
        exfalso. revert Hlen. cbn [digits].
        destruct (n / 10 <? 10).
        -- cbn [length]. lia.
        -- set (a := byte_of_Z (48 + n / 10 mod 10)
                       :: byte_of_Z (48 + n mod 10) :: acc).
           pose proof (digits_length_lower fuel (n / 10 / 10) a) as Hlow.
           unfold a in Hlow at 1. cbn [length] in Hlow. lia.
      * pose proof (IH (n / 10) (byte_of_Z (48 + n mod 10) :: acc) (S k) Hq
                      ltac:(lia)) as [I1 I2].
        cbn [length] in I1, I2.
        rewrite (Nat2Z.inj_succ (S k)), (Z.pow_succ_r 10 (Z.of_nat (S k))) by lia.
        split; intros H.
        -- assert (Hlt : n / 10 < 10 ^ Z.of_nat (S k))
             by (apply Z.div_lt_upper_bound; lia).
           specialize (I1 Hlt). lia.
        -- assert (Hlt : n / 10 < 10 ^ Z.of_nat (S k)) by (apply I2; lia).
           lia.
Qed.

Lemma FormatInt_value (v : Z) :
  0 <= v < 2 ^ 32 ->
  decimal_value (FormatInt v) = v
  /\ forallb is_digit (FormatInt v) = true
  /\ 1 <= len (FormatInt v) <= 10.
Proof.
  intros Hv. change (2 ^ 32) with 4294967296 in Hv. unfold FormatInt.
  destruct (v <? 0) eqn:E; zbool E; [lia|].
  assert (Hf : 0 <= v < 10 ^ Z.of_nat 19)
    by (change (10 ^ Z.of_nat 19) with 10000000000000000000; lia).
  split; [|split].
  - rewrite digits_value by exact Hf. change (len []) with 0.
    rewrite Z.pow_0_r. cbn [decimal_value]. lia.
  - now apply digits_are_digits.
  - split.
    + pose proof (digits_length_pos 19 v [] ltac:(lia)) as H.
      unfold len. cbn [length] in H. lia.
    + pose proof (proj1 (digits_length 19 v [] 10 Hf ltac:(lia))) as H.
      unfold len. cbn [length] in H.
      change (10 ^ Z.of_nat 10) with 10000000000 in H. lia.
Qed.

Lemma FormatInt_length (v : Z) (k : nat) :
  0 <= v < 2 ^ 32 -> (1 <= k)%nat ->
  len (FormatInt v) <= Z.of_nat k <-> v < 10 ^ Z.of_nat k.
Proof.
  intros Hv Hk. change (2 ^ 32) with 4294967296 in Hv. unfold FormatInt.
  destruct (v <? 0) eqn:E; zbool E; [lia|].
  assert (Hf : 0 <= v < 10 ^ Z.of_nat 19)
    by (change (10 ^ Z.of_nat 19) with 10000000000000000000; lia).
  rewrite (digits_length 19 v [] k Hf Hk). unfold len. cbn [length]. lia.
Qed.

Section Xid.

Variable convertUint32 : any -> converted.
Hypothesis convertUint32_uint32 :
  forall v, 0 <= v < 2 ^ 32 -> convertUint32 (AUint32 v) = (AUint32 v, InRange, None).

Lemma Xid_FormatValue_FormatInt (v : Z) :
  0 <= v < 2 ^ 32 ->
  XidType_FormatValue convertUint32 (AUint32 v) = Return (FormatInt v, None).
Proof.
  intros Hv. unfold XidType_FormatValue, XidType_Convert.
  now rewrite convertUint32_uint32 by exact Hv.
Qed.

(** The text of an xid is its decimal numeral: one to ten digits that
    write the xid, and nothing else; the cast of an oid to text gives the
    same text. *)
Theorem Xid_FormatValue_decimal (v : Z) :
  0 <= v < 2 ^ 32 ->
  exists s,
    XidType_FormatValue convertUint32 (AUint32 v) = Return (s, None)
    /\ oid_Text (AUint32 v) = Return s
    /\ decimal_value s = v
    /\ forallb is_digit s = true
    /\ 1 <= len s <= 10.
Proof.
  intros Hv. exists (FormatInt v).
  split; [now apply Xid_FormatValue_FormatInt|].
  split; [reflexivity|]. now apply FormatInt_value.
Qed.

(** The text of an xid fits the byte length the type announces for it,
    4, only for the xids below 10000. *)
Theorem Xid_FormatValue_MaxTextResponseByteLength (v : Z) (s : list byte) :
  0 <= v < 2 ^ 32 ->
  XidType_FormatValue convertUint32 (AUint32 v) = Return (s, None) ->
  len s <= XidType_MaxTextResponseByteLength <-> v < 10000.
Proof.
  intros Hv Hs. rewrite Xid_FormatValue_FormatInt in Hs by exact Hv.
  inversion Hs; subst.
  apply (FormatInt_length v 4 Hv). lia.
Qed.

End Xid.

Lemma Xid_FormatValue_decimal_witness :
  exists s,
    XidType_FormatValue convertUint32_strict (AUint32 4294967295) = Return (s, None)
    /\ oid_Text (AUint32 4294967295) = Return s
    /\ decimal_value s = 4294967295
    /\ forallb is_digit s = true
    /\ 1 <= len s <= 10.
Proof.
  assert (H : forall v, 0 <= v < 2 ^ 32 ->
                convertUint32_strict (AUint32 v) = (AUint32 v, InRange, None))
    by reflexivity.
  apply (Xid_FormatValue_decimal convertUint32_strict H 4294967295).
  vm_compute. split; [discriminate|reflexivity].
Defined.

Lemma Xid_FormatValue_MaxTextResponseByteLength_witness :
  len (FormatInt 10000) <= XidType_MaxTextResponseByteLength <-> 10000 < 10000.
Proof.
  assert (H : forall v, 0 <= v < 2 ^ 32 ->
                convertUint32_strict (AUint32 v) = (AUint32 v, InRange, None))
    by reflexivity.
  apply (Xid_FormatValue_MaxTextResponseByteLength convertUint32_strict H 10000
           (FormatInt 10000));
    [vm_compute; split; [discriminate|reflexivity]|reflexivity].
Defined.

End FormatFacts.

(* --------------------------------------------------------------------- *)
(** ** server/ast: the varchar a column type resolves to                  *)
(* --------------------------------------------------------------------- *)

Module AstFacts.
Import Types Ast GoFacts Utf8Facts VarCharFacts VarCharMethodsFacts.

Lemma uint32_of_int32 (w : Z) :
  - 2 ^ 31 <= w < 2 ^ 31 ->
  uint32 w = if w <? 0 then w + 2 ^ 32 else w.
Proof.
  intros Hw. unfold uint32.
  change (2 ^ 31) with 2147483648 in Hw. change (2 ^ 32) with 4294967296.
  destruct (w <? 0) eqn:E; zbool E.
  - symmetry. apply (Z.mod_unique _ _ (-1)); lia.
  - apply Z.mod_small. lia.
Qed.

(** A width from 1 to [VarCharMaxLength] resolves to the varchar of that
    length and the width 0 to the varchar of the greatest length; every
    other width, the negative ones among them, is refused.  So the length of
    a resolved varchar is always between 1 and [VarCharMaxLength]. *)
Theorem resolved_varchar_Length (Width : Z) :
  - 2 ^ 31 <= Width < 2 ^ 31 ->
  match nodeResolvableTypeReference_varchar Width with
  | inl b =>
      0 <= Width <= VarCharMaxLength
      /\ Length b = (if Width =? 0 then VarCharMaxLength else Width)
      /\ 1 <= Length b <= VarCharMaxLength
  | inr e =>
      (Width < 0 \/ VarCharMaxLength < Width)
      /\ e = Errorf "length for type varchar cannot exceed %d" VarCharMaxLength
  end.
Proof.
  intros Hw. unfold nodeResolvableTypeReference_varchar.
  rewrite uint32_of_int32 by exact Hw.
  change (2 ^ 31) with 2147483648 in Hw. change (2 ^ 32) with 4294967296.
  unfold VarCharMaxLength.
  destruct (Width <? 0) eqn:E0; zbool E0.
  - destruct (Width + 4294967296 >? 10485760) eqn:E1; zbool E1; [|lia].
    split; [lia|reflexivity].
  - destruct (Width >? 10485760) eqn:E1; zbool E1; [split; [lia|reflexivity]|].
    cbn [Length]. destruct (Width =? 0) eqn:E2; zbool E2; lia.
Qed.

(** What a resolved varchar converts: every string shorter than 2^32 bytes,
    to a string of at most [Length] characters, at most the declared width
    when one was declared, that fits the byte length the type announces
    for its text. *)
Theorem resolved_varchar_Convert (Width : Z) (b : VarCharType) (val : list byte) :
  - 2 ^ 31 <= Width < 2 ^ 31 ->
  nodeResolvableTypeReference_varchar Width = inl b ->
  len val < 2 ^ 32 ->
  exists r,
    VarCharType_Convert b (AString val) = Return (AString r, InRange, None)
    /\ RuneCount r <= Length b
    /\ (Width <> 0 -> RuneCount r <= Width)
    /\ len r <= VarCharType_MaxTextResponseByteLength b.
Proof.
  intros Hw Hb Hlen. revert Hb. unfold nodeResolvableTypeReference_varchar.
  rewrite uint32_of_int32 by exact Hw.
  change (2 ^ 31) with 2147483648 in Hw. change (2 ^ 32) with 4294967296 in *.
  unfold VarCharMaxLength.
  set (w := if Width <? 0 then Width + 4294967296 else Width).
  assert (Hw' : 0 <= w) by (unfold w; destruct (Width <? 0) eqn:E; zbool E; lia).
  destruct (w >? 10485760) eqn:E1; zbool E1; [discriminate|].
  intros Hb. inversion Hb as [Hb']. clear Hb.
  set (l := if w =? 0 then 10485760 else w) in *.
  assert (Hl : 1 <= l <= 10485760)
    by (unfold l; destruct (w =? 0) eqn:E; zbool E; lia).
  assert (HL : 0 <= Length (mkVarCharType l) < 2 ^ 32)
    by (cbn [Length]; change (2 ^ 32) with 4294967296; lia).
  exists (first_runes (Z.to_nat l) val).
  split; [apply (Convert_string (mkVarCharType l) HL);
          change (2 ^ 32) with 4294967296; exact Hlen|].
  pose proof (RuneCount_first_runes_min (Z.to_nat l) val) as Hc.
  pose proof (len_RuneCount (first_runes (Z.to_nat l) val)) as H4.
  cbn [Length]. split; [lia|]. split.
  - intros Hne. unfold l, w in *.
    destruct (Width <? 0) eqn:E; zbool E; [lia|].
    destruct (Width =? 0) eqn:E'; zbool E'; lia.
  - unfold VarCharType_MaxTextResponseByteLength, uint32. cbn [Length].
    rewrite Z.mod_small by (change (2 ^ 32) with 4294967296; lia). lia.
Qed.

Lemma resolved_varchar_Length_witness :
  match nodeResolvableTypeReference_varchar (-1) with
  | inl b =>
      0 <= -1 <= VarCharMaxLength
      /\ Length b = (if -1 =? 0 then VarCharMaxLength else -1)
      /\ 1 <= Length b <= VarCharMaxLength
  | inr e =>
      (-1 < 0 \/ VarCharMaxLength < -1)
      /\ e = Errorf "length for type varchar cannot exceed %d" VarCharMaxLength
  end.
Proof. apply (resolved_varchar_Length (-1)). lia. Defined.

Lemma resolved_varchar_Convert_witness :
  exists r,
    VarCharType_Convert (mkVarCharType 2) (AString [x68; xc3; xa9; x6c])
    = Return (AString r, InRange, None)
    /\ RuneCount r <= Length (mkVarCharType 2)
    /\ (2 <> 0 -> RuneCount r <= 2)
    /\ len r <= VarCharType_MaxTextResponseByteLength (mkVarCharType 2).
Proof.
  apply (resolved_varchar_Convert 2 (mkVarCharType 2) [x68; xc3; xa9; x6c]);
    [lia|reflexivity|vm_compute; reflexivity].
Defined.

End AstFacts.
